(** * Mauritian Recipe Finder: the client scripts and the ranking contract

    A shallow embedding of the two browser scripts of the repository: the
    page script ([main.js], progressive enhancement for the Search, Results
    and Recipe Detail pages), with its local-storage helpers, search-form
    collection, typeahead bootstrap, input chips and HTML escaping; and the
    datalist typeahead script ([backend/static/js/main.js]). The ranking
    contract of the search engine they call is modelled next to them.

    Conventions of the embedding:
    - a JavaScript string is the list of its UTF-16 code units ([list N]);
    - a Number is a double. The scripts only meet integers: [PNum n] is the
      double of the integer [n], [PInf] an infinity, and [NaN] the absence of
      a value. Reading a numeral rounds to the nearest double
      ([round_double]) and printing gives the shortest digits that read back
      ([number_toString]);
    - any other JavaScript value is a [jsval];
    - a call that may throw returns a [completion]. *)

From Stdlib Require Import ZArith NArith Ascii String DecimalString.
From Stdlib Require DecimalPos.
From stdpp Require Import base tactics option list sorting strings gmap.

Local Open Scope Z_scope.

(** ** JavaScript strings and the string builtins the scripts call *)

Abbreviation jsstring := (list N).

(** An ASCII literal as a JavaScript string. *)
Definition js (s : string) : jsstring :=
  map N_of_ascii (list_ascii_of_string s).

Definition comma : N := 44%N.
Definition space : N := 32%N.

(** ECMAScript [WhiteSpace] and [LineTerminator] code units: what
    [String.prototype.trim] strips and what [\s] matches. *)
Definition is_ws (c : N) : bool :=
  ((9 <=? c) && (c <=? 13) || (c =? 32) || (c =? 160) || (c =? 5760)
   || (8192 <=? c) && (c <=? 8202) || (c =? 8232) || (c =? 8233)
   || (c =? 8239) || (c =? 8287) || (c =? 12288) || (c =? 65279))%N.

Fixpoint trimStart (s : jsstring) : jsstring :=
  match s with
  | [] => []
  | c :: r => if is_ws c then trimStart r else s
  end.

Definition trimEnd (s : jsstring) : jsstring :=
  reverse (trimStart (reverse s)).

(** [s.trim()] *)
Definition trim (s : jsstring) : jsstring := trimEnd (trimStart s).

(** [s.split(",")]: the pieces between the separators, empty pieces kept. *)
Fixpoint split (sep : N) (s : jsstring) : list jsstring :=
  match s with
  | [] => [[]]
  | c :: r =>
      if (c =? sep)%N then [] :: split sep r
      else match split sep r with
           | [] => [[c]]
           | p :: ps => (c :: p) :: ps
           end
  end.

(** [arr.join(sep)] on an array of strings. *)
Fixpoint join (sep : jsstring) (l : list jsstring) : jsstring :=
  match l with
  | [] => []
  | [x] => x
  | x :: r => x ++ sep ++ join sep r
  end.

(** [[...new Set(arr)]]: the set is filled in array order, a value already in
    the set is skipped, and the spread lists the set in insertion order. *)
Fixpoint set_spread (seen : list jsstring) (arr : list jsstring) : list jsstring :=
  match arr with
  | [] => []
  | x :: r =>
      if decide (x ∈ seen) then set_spread seen r
      else x :: set_spread (x :: seen) r
  end.

Definition unique (arr : list jsstring) : list jsstring := set_spread [] arr.

(** Truthiness of a string: [Boolean(s)]. *)
Definition nonempty (s : jsstring) : bool :=
  match s with [] => false | _ => true end.

(** The Basic Latin part of [String.prototype.toLowerCase]: [A]-[Z] go to
    [a]-[z]. On strings of ASCII code units this is the builtin. *)
Definition ascii_toLowerCase (s : jsstring) : jsstring :=
  map (fun c => if ((65 <=? c) && (c <=? 90))%N then (c + 32)%N else c) s.

(** [s.replace(/\s+/g, " ")]: every maximal run of whitespace becomes one
    space. The scripts never call it; the normalisation of the Term Resolver
    is described with it. *)
Fixpoint collapse_from (in_run : bool) (s : jsstring) : jsstring :=
  match s with
  | [] => []
  | c :: r =>
      if is_ws c
      then (if in_run then collapse_from true r else space :: collapse_from true r)
      else c :: collapse_from false r
  end.

Definition collapse_ws (s : jsstring) : jsstring := collapse_from false s.

(** The integer that [parseInt(s, 10)] reads before it makes a Number of
    it: leading whitespace is skipped, one sign is read, then the longest
    run of decimal digits; [None] when no digit was read. *)
Definition is_digit (c : N) : bool := ((48 <=? c) && (c <=? 57))%N.

Fixpoint digits_value (acc : Z) (s : jsstring) : Z :=
  match s with
  | [] => acc
  | c :: r => if is_digit c then digits_value (10 * acc + (Z.of_N c - 48)) r else acc
  end.

Definition read_integer (s : jsstring) : option Z :=
  let s1 := trimStart s in
  let '(sign, s2) :=
    match s1 with
    | 45%N :: r => (-1, r)
    | 43%N :: r => (1, r)
    | _ => (1, s1)
    end in
  match s2 with
  | c :: _ => if is_digit c then Some (sign * digits_value 0 s2) else None
  | [] => None
  end.

(** ** JavaScript values *)

Inductive primitive : Type :=
  | PUndefined
  | PNull
  | PBool (b : bool)
  | PNum (n : Z)
  | PStr (s : jsstring)
  | PInf (negative : bool).

(** The Number of an integer: the nearest double, a tie going to the even
    significand of 53 bits, and from [2^1024 - 2^970] on the infinity of its
    sign. *)
Definition round_double (z : Z) : primitive :=
  let a := Z.abs z in
  if a <? 2 ^ 53 then PNum z
  else
    let e := Z.log2 a - 52 in
    let q := a / 2 ^ e in
    let r := a mod 2 ^ e in
    let half := 2 ^ (e - 1) in
    let q' := if (half <? r) || ((r =? half) && Z.odd q) then q + 1 else q in
    let m := q' * 2 ^ e in
    if 2 ^ 1024 <=? m then PInf (z <? 0) else PNum (Z.sgn z * m).

(** [parseInt(s, 10)]: the Number of the integer read; [None] is [NaN].
    (The language lets an engine drop digits after the twentieth; the
    engines in use round the whole numeral.) *)
Definition parseInt10 (s : jsstring) : option primitive :=
  round_double <$> read_integer s.

#[warnings="-register-all"] Inductive jsval : Type :=
  | Prim (p : primitive)
  | VArr (elems : list jsval)
  | VObj (fields : list (string * jsval)).

Abbreviation VNull := (Prim PNull).
Abbreviation VBool b := (Prim (PBool b)).
Abbreviation VNum n := (Prim (PNum n)).
Abbreviation VStr s := (Prim (PStr s)).

(** [ToBoolean]: what [||], [&&], [?:] and [filter(Boolean)] test. *)
Definition truthy_prim (p : primitive) : bool :=
  match p with
  | PUndefined | PNull => false
  | PBool b => b
  | PNum n => negb (n =? 0)
  | PStr s => nonempty s
  | PInf _ => true
  end.

Definition truthy (v : jsval) : bool :=
  match v with
  | Prim p => truthy_prim p
  | VArr _ | VObj _ => true
  end.

Definition is_array (v : jsval) : bool :=
  match v with VArr _ => true | _ => false end.


(** [v === id] for a number [id]. *)
Definition strict_eq_num (id : Z) (v : jsval) : bool :=
  match v with
  | Prim (PNum n) => n =? id
  | _ => false
  end.

(** All the decimal digits of an integer. *)
Definition decimal_text (n : Z) : jsstring :=
  js (DecimalString.NilZero.string_of_int (Z.to_int n)).

(** [v] reads as the double [x]. *)
Definition rounds_to (x v : Z) : bool :=
  match round_double v with
  | PNum y => y =? x
  | _ => false
  end.

(** The number with the fewest significant digits that reads as the double
    [x > 0], and among those the nearest to [x]: the multiples of [10^m]
    around [x] are tried from level [m] downwards, a level more for each
    further digit; [x] itself is the last resort. *)
Fixpoint shortest_from (m : nat) (x : Z) : Z :=
  let p := 10 ^ Z.of_nat m in
  let lo := x / p * p in
  let hi := lo + p in
  if rounds_to x lo && rounds_to x hi then (if x - lo <=? hi - x then lo else hi)
  else if rounds_to x lo then lo
  else if rounds_to x hi then hi
  else match m with
       | O => x
       | S m' => shortest_from m' x
       end.

(** A level at or above the last digit of [x]; the levels above it hold
    nothing that reads as [x]. *)
Definition start_level (x : Z) : nat :=
  if x <? 10 ^ 21 then 20%nat else Z.to_nat (Z.log2 x).

Fixpoint drop_zeros (s : jsstring) : jsstring :=
  match s with
  | 48%N :: r => drop_zeros r
  | _ => s
  end.

(** Exponent form: the first significant digit, the others after a point,
    and the power of ten of the first digit. *)
Definition exponent_text (v : Z) : jsstring :=
  let digits := decimal_text v in
  match reverse (drop_zeros (reverse digits)) with
  | [] => []
  | d :: rest =>
      d :: match rest with [] => [] | _ => 46%N :: rest end
        ++ js "e+" ++ decimal_text (Z.of_nat (length digits) - 1)
  end.

(** [String(n)] for the double of an integer, as [Number.prototype.toString]
    prints it: the shortest digits that read as [n], padded with zeros in
    plain form below [10^21], in exponent form from there on. *)
Definition number_toString (n : Z) : jsstring :=
  if n =? 0 then js "0"
  else
    let v := shortest_from (start_level (Z.abs n)) (Z.abs n) in
    (if n <? 0 then [45%N] else [])
      ++ (if v <? 10 ^ 21 then decimal_text v else exponent_text v).

(** [ToString] of a primitive. *)
Definition prim_toString (p : primitive) : jsstring :=
  match p with
  | PUndefined => js "undefined"
  | PNull => js "null"
  | PBool true => js "true"
  | PBool false => js "false"
  | PNum n => number_toString n
  | PStr s => s
  | PInf false => js "Infinity"
  | PInf true => js "-Infinity"
  end.

(** Calls that may throw. *)
Inductive js_error : Type := SyntaxError | TypeError | HttpError.

Inductive completion (A : Type) : Type :=
  | Normal (a : A)
  | Throw (e : js_error).
Arguments Normal {A} a.
Arguments Throw {A} e.

(** [try { body } catch { fallback }] *)
Definition try_catch {A} (body : completion A) (fallback : A) : A :=
  match body with
  | Normal a => a
  | Throw _ => fallback
  end.

(** ** Local storage (page script, lines 68-108)

    [localStorage] maps keys to texts. The scripts only ever write
    [JSON.stringify] of a value and read through [JSON.parse], so a text is
    kept as what [JSON.parse] makes of it: the value it denotes, or nothing
    when it is not JSON. Where the value written is JSON data, as the array
    of [setFavorites] is (parsed data with a recipe index pushed or spliced),
    [JSON.parse] gives it back unchanged and writing [JSON.stringify v]
    stores [Json v]. A payload may hold an infinity, which is no JSON data:
    [saveLastSearch] goes through [JSON_stringify]. *)

Inductive text : Type :=
  | NotJson
  | Json (v : jsval).

Abbreviation storage := (gmap string text).

Definition LS_favorites : string := "mrf:favorites".
Definition LS_lastSearch : string := "mrf:last-search".

(** [localStorage.getItem(key)]: [None] is [null]. *)
Definition getItem (ls : storage) (key : string) : option text := ls !! key.

(** [localStorage.setItem(key, t)] *)
Definition setItem (ls : storage) (key : string) (t : text) : storage :=
  <[key := t]> ls.

(** [JSON.parse(item)]: [null] is first turned into the text ["null"]. *)
Definition JSON_parse (item : option text) : completion jsval :=
  match item with
  | None => Normal VNull
  | Some NotJson => Throw SyntaxError
  | Some (Json v) => Normal v
  end.

(** [a || b] on values. *)
Definition js_or (a b : jsval) : jsval := if truthy a then a else b.

Definition getFavorites (ls : storage) : jsval :=
  try_catch
    (match JSON_parse (getItem ls LS_favorites) with
     | Normal v => Normal (js_or v (VArr []))
     | Throw e => Throw e
     end)
    (VArr []).

Definition setFavorites (arr : list jsval) (ls : storage) : storage :=
  setItem ls LS_favorites (Json (VArr arr)).

(** [arr.indexOf(id)] and [arr.includes(id)] for a number [id]. *)
Fixpoint indexOf_from (k : Z) (arr : list jsval) (id : Z) : Z :=
  match arr with
  | [] => -1
  | v :: r => if strict_eq_num id v then k else indexOf_from (k + 1) r id
  end.

Definition indexOf (arr : list jsval) (id : Z) : Z := indexOf_from 0 arr id.

Definition includes (arr : list jsval) (id : Z) : bool :=
  existsb (strict_eq_num id) arr.

(** [s.includes(String(id))] on a string. *)
Fixpoint is_prefix (p s : jsstring) : bool :=
  match p, s with
  | [], _ => true
  | _ :: _, [] => false
  | a :: p', b :: s' => (a =? b)%N && is_prefix p' s'
  end.

Fixpoint string_includes (s p : jsstring) : bool :=
  is_prefix p s || match s with [] => false | _ :: r => string_includes r p end.

(** [isFavorite(id)]: arrays and strings have [includes]; on any other value
    the call is a [TypeError]. *)
Definition isFavorite (id : Z) (ls : storage) : completion bool :=
  match getFavorites ls with
  | VArr arr => Normal (includes arr id)
  | Prim (PStr s) => Normal (string_includes s (number_toString id))
  | _ => Throw TypeError
  end.

(** [toggleFavorite(id)] for a recipe index [id]: the verdict and the storage
    it leaves. Only an array has [indexOf] together with [push] and
    [splice]. *)
Definition toggleFavorite (id : Z) (ls : storage) : completion (bool * storage) :=
  match getFavorites ls with
  | VArr favs =>
      let i := indexOf favs id in
      let favs' := if i =? -1 then favs ++ [VNum id]
                   else delete (Z.to_nat i) favs in
      Normal (includes favs' id, setFavorites favs' ls)
  | _ => Throw TypeError
  end.

Definition loadLastSearch (ls : storage) : jsval :=
  try_catch
    (match JSON_parse (getItem ls LS_lastSearch) with
     | Normal v => Normal (js_or v VNull)
     | Throw e => Throw e
     end)
    VNull.

(** What [JSON.parse] reads back from [JSON.stringify(v)], for [v] other
    than [undefined]: an infinity is written as [null], so is [undefined] as
    an element of an array, and a property whose value is [undefined] is left
    out. The values hold no functions, so no [toJSON] is called. *)
Fixpoint jsonify (v : jsval) : jsval :=
  match v with
  | Prim (PInf _) => VNull
  | Prim p => Prim p
  | VArr elems =>
      VArr (map (fun x => match x with
                          | Prim PUndefined => VNull
                          | _ => jsonify x
                          end) elems)
  | VObj fields =>
      VObj ((fix props (l : list (string * jsval)) : list (string * jsval) :=
               match l with
               | [] => []
               | (k, Prim PUndefined) :: r => props r
               | (k, x) :: r => (k, jsonify x) :: props r
               end) fields)
  end.

(** The text [JSON.stringify(v)] as an item of a storage:
    [JSON.stringify(undefined)] is [undefined], which [setItem] stores as the
    text [undefined], and that is no JSON. *)
Definition JSON_stringify (v : jsval) : text :=
  match v with
  | Prim PUndefined => NotJson
  | _ => Json (jsonify v)
  end.

Definition saveLastSearch (payload : jsval) (ls : storage) : storage :=
  setItem ls LS_lastSearch (JSON_stringify payload).

(** ** Search form (page script, lines 136-167) *)

(** [parseCommaList(value)]. The argument is the [value] of an input element,
    a string, on which the [||] fallback to the empty string gives [value]
    itself. *)
Definition parseCommaList (value : jsstring) : list jsstring :=
  filter (fun s => Is_true (nonempty s)) (map trim (split comma value)).

(** A form element as the script reads it. *)
Record element : Type := { value : jsstring; checked : bool }.

(** A form, as the answers to the selector queries of [collectSearchPayload]:
    [$] gives the first match or nothing, [$$] all matches in document
    order. *)
Record form : Type := {
  have_by_id : option element;        (* $("#have-input", form) *)
  have_by_name : option element;      (* $("[name='have']", form) *)
  avoid_by_id : option element;       (* $("#avoid-input", form) *)
  avoid_by_name : option element;     (* $("[name='avoid']", form) *)
  diet_checked : list element;        (* checked data-role='diet' boxes *)
  allergen_checked : list element;    (* checked data-role='allergen' boxes *)
  limit_el : option element;          (* $("#limit", form) *)
  attach_labels_el : option element   (* $("#attach-labels", form) *)
}.

(** [a || b] on query results: an element is truthy. *)
Definition el_or (a b : option element) : option element :=
  match a with Some e => Some e | None => b end.

Definition list_field (inp : option element) : list jsstring :=
  match inp with
  | Some e => parseCommaList (value e)
  | None => []
  end.

(** [limitInput && limitInput.value ? parseInt(limitInput.value, 10) || 20 : 20] *)
Definition collect_limit (f : form) : primitive :=
  match limit_el f with
  | Some e =>
      if nonempty (value e) then
        match parseInt10 (value e) with
        | Some n => if truthy_prim n then n else PNum 20
        | None => PNum 20
        end
      else PNum 20
  | None => PNum 20
  end.

Definition collect_attach_labels (f : form) : bool :=
  match attach_labels_el f with
  | Some e => checked e
  | None => false
  end.

Section SearchPayload.
(** [String.prototype.toLowerCase], kept abstract. *)
Variable toLowerCase : jsstring -> jsstring.

Definition checkbox_values (els : list element) : list jsstring :=
  map (fun el => toLowerCase (trim (value el))) els.

Definition collectSearchPayload (f : form) : jsval :=
  let haveInput := el_or (have_by_id f) (have_by_name f) in
  let avoidInput := el_or (avoid_by_id f) (avoid_by_name f) in
  let have := list_field haveInput in
  let avoid := list_field avoidInput in
  let diet := checkbox_values (diet_checked f) in
  let avoid_allergens := checkbox_values (allergen_checked f) in
  let limit := collect_limit f in
  let attach_labels := collect_attach_labels f in
  VObj [ ("have", VArr (map (fun s => VStr s) have));
         ("avoid", VArr (map (fun s => VStr s) avoid));
         ("diet", VArr (map (fun s => VStr s) diet));
         ("avoid_allergens", VArr (map (fun s => VStr s) avoid_allergens));
         ("limit", Prim limit);
         ("attach_labels", VBool attach_labels) ].
End SearchPayload.

(** The shape of a search request: exactly the six fields, in the order the
    object literal lists them, each of its type. *)
Definition is_string_list (v : jsval) : bool :=
  match v with
  | VArr l => forallb (fun x => match x with Prim (PStr _) => true | _ => false end) l
  | _ => false
  end.

Definition is_integer (v : jsval) : bool :=
  match v with Prim (PNum _) => true | _ => false end.

Definition is_boolean (v : jsval) : bool :=
  match v with Prim (PBool _) => true | _ => false end.

Definition is_search_request (v : jsval) : bool :=
  match v with
  | VObj fields =>
      bool_decide (map fst fields =
                   ["have"; "avoid"; "diet"; "avoid_allergens"; "limit"; "attach_labels"])
      && forallb id (zip_with (fun (chk : jsval -> bool) kv => chk (snd kv))
           [is_string_list; is_string_list; is_string_list; is_string_list;
            is_integer; is_boolean] fields)
  | _ => false
  end.

(** A Number: the double of an integer, or an infinity. *)
Definition is_number (v : jsval) : bool :=
  match v with Prim (PNum _) | Prim (PInf _) => true | _ => false end.

(** The shape that the payload has on every form: the six fields, the four
    lists of strings, a Number for [limit] and a boolean. *)
Definition is_search_payload (v : jsval) : bool :=
  match v with
  | VObj fields =>
      bool_decide (map fst fields =
                   ["have"; "avoid"; "diet"; "avoid_allergens"; "limit"; "attach_labels"])
      && forallb id (zip_with (fun (chk : jsval -> bool) kv => chk (snd kv))
           [is_string_list; is_string_list; is_string_list; is_string_list;
            is_number; is_boolean] fields)
  | _ => false
  end.

(** The [limit] of a payload. *)
Definition payload_limit (v : jsval) : option jsval :=
  match v with
  | VObj fields => snd <$> List.find (fun kv => String.eqb (fst kv) "limit") fields
  | _ => None
  end.

(** ** Input chips (page script, lines 460-475): the [change] listener rewrites
    the input with [[...new Set(parseCommaList(inp.value))].join(", ")]. *)
Definition chip_cleanup (v : jsstring) : jsstring :=
  join [comma; space] (unique (parseCommaList v)).

(** ** Typeahead bootstrap (page script, lines 110-134) *)

Record request : Type := {
  req_url : string;
  req_method : option string;
  req_body : option jsval;
  req_headers : list (string * string)
}.

(** The request [fetchJSON(url)] sends when called without options. *)
Definition fetchJSON_request (url : string) : request :=
  {| req_url := url; req_method := None; req_body := None;
     req_headers := [("Content-Type", "application/json")] |}.

(** An entry of the typeahead feed; an absent property is [None]. *)
Record feed_entry : Type := {
  fe_id : primitive;
  fe_term : option jsstring;
  fe_q : option jsstring
}.

Record option_el : Type := { opt_value : jsstring; opt_data_id : jsstring }.

Abbreviation datalist := (list option_el).

(** [x.term], else [x.q], else the empty string (an [||] chain). *)
Definition entry_term (x : feed_entry) : jsstring :=
  match fe_term x with
  | Some (c :: s) => c :: s
  | _ => match fe_q x with
         | Some (c :: s) => c :: s
         | _ => []
         end
  end.

Definition typeahead_options (ta : list feed_entry) : list option_el :=
  map (fun x => {| opt_value := snd x; opt_data_id := prim_toString (fst x) |})
    (filter (fun x => Is_true (nonempty (snd x)))
       (map (fun x => (fe_id x, entry_term x)) (take 1000 ta))).

(** [initTypeahead()]: the requests it sends and the datalists it leaves.
    [fetch] is the server: the parsed feed, or a failure of any kind
    (network, status, body), which the [catch] swallows. *)
Definition initTypeahead (fetch : request -> completion (list feed_entry))
    (datalists : list datalist) : list request * list datalist :=
  match datalists with
  | [] => ([], [])
  | _ =>
      let req := fetchJSON_request "/typeahead" in
      match fetch req with
      | Normal ta =>
          let opts := typeahead_options ta in
          ([req], map (fun _ => opts) datalists)
      | Throw _ => ([req], datalists)
      end
  end.

(** ** Datalist typeahead (backend/static/js/main.js, lines 35-45) *)

Record concept : Type := {
  label : jsstring;
  synonyms : option (list (option jsstring))  (* [None]: not an array *)
}.

Section Typeahead.
Variable toLowerCase : jsstring -> jsstring.

Definition label_matches (val : jsstring) (x : concept) : bool :=
  bool_decide (toLowerCase (label x) = val).

(** [Array.isArray(x.synonyms) && x.synonyms.some(...)]: a synonym that is
    [null] or absent counts as the empty string. *)
Definition synonym_matches (val : jsstring) (x : concept) : bool :=
  match synonyms x with
  | Some syns =>
      existsb (fun s => bool_decide (toLowerCase (default [] s) = val)) syns
  | None => false
  end.

Definition entry_matches (val : jsstring) (x : concept) : bool :=
  label_matches val x || synonym_matches val x.

(** [input.value.trim().toLowerCase()] *)
Definition typed_term (input_value : jsstring) : jsstring :=
  toLowerCase (trim input_value).

(** The [change] listener: the value the input holds afterwards. *)
Definition on_change (data : list concept) (input_value : jsstring) : jsstring :=
  let val := typed_term input_value in
  if nonempty val then
    match List.find (entry_matches val) data with
    | Some m => label m
    | None => input_value
    end
  else input_value.
End Typeahead.

(** ** HTML escaping (page script, lines 477-483) *)

(** The replacement that the callback of the global [replace] looks up for
    each of the five markup characters; any other code unit is kept. *)
Definition escape_unit (c : N) : jsstring :=
  if (c =? 38)%N then js "&amp;"
  else if (c =? 60)%N then js "&lt;"
  else if (c =? 62)%N then js "&gt;"
  else if (c =? 34)%N then js "&quot;"
  else if (c =? 39)%N then js "&#039;"
  else [c].

(** [escapeHtml(str)]: the [??] replaces [null] and [undefined] only, by the
    empty string. *)
Definition escapeHtml (str : primitive) : jsstring :=
  let s := match str with
           | PUndefined | PNull => []
           | _ => prim_toString str
           end in
  concat (map escape_unit s).

(** ** The Matcher/Ranker behind [POST /search] *)

(** Modelled from the spec: the search engine (Recipe Index and
    Matcher/Ranker of sections 3 and 4.5) is served by the backend and is not
    among the sources; the page script only posts the payload to it and
    renders [score], [have_count] and [missing_count] of each result. The
    definitions below follow the words of section 4.5: exclusion by allergen,
    diet and avoided ingredient, classification of each ingredient as have or
    missing, [score = have_count - missing_count], the three-key sort and the
    truncation to the limit. *)

Record Recipe : Type := {
  recipe_id : string;
  (** the expanded concept set of each ingredient, in recipe order *)
  recipe_ingredients : list (list string);
  recipe_diet_tags : list string;
  recipe_allergens : list string
}.

Record ResolvedQuery : Type := {
  q_have : list string;
  q_avoid : list string;
  q_diet_filters : list string;
  q_avoid_allergens : list string;
  q_limit : option Z
}.

Record ScoredResult : Type := {
  sr_recipe : Recipe;
  have_count : Z;
  missing_count : Z;
  avoid_count : Z;
  score : Z
}.

Definition intersects (a b : list string) : bool :=
  existsb (fun x => bool_decide (x ∈ b)) a.

Definition excluded (q : ResolvedQuery) (r : Recipe) : bool :=
  intersects (recipe_allergens r) (q_avoid_allergens q)
  || negb (forallb (fun d => bool_decide (d ∈ recipe_diet_tags r)) (q_diet_filters q))
  || existsb (fun ing => intersects ing (q_avoid q)) (recipe_ingredients r).

Definition score_recipe (q : ResolvedQuery) (r : Recipe) : ScoredResult :=
  let have := List.filter (fun ing => intersects ing (q_have q)) (recipe_ingredients r) in
  let missing := List.filter (fun ing => negb (intersects ing (q_have q))) (recipe_ingredients r) in
  let h := Z.of_nat (length have) in
  let m := Z.of_nat (length missing) in
  {| sr_recipe := r; have_count := h; missing_count := m; avoid_count := 0;
     score := h - m |}.

(** Non-positive or missing limits default to 20. *)
Definition effective_limit (q : ResolvedQuery) : Z :=
  match q_limit q with
  | Some n => if 0 <? n then n else 20
  | None => 20
  end.

(** [a] is listed no later than [b]: higher score first, then higher
    [have_count], then smaller recipe id. *)
Definition ranks_before (a b : ScoredResult) : Prop :=
  score b < score a
  ∨ (score a = score b
     ∧ (have_count b < have_count a
        ∨ (have_count a = have_count b
           ∧ String.le (recipe_id (sr_recipe a)) (recipe_id (sr_recipe b))))).

#[global] Instance ranks_before_dec : RelDecision ranks_before.
Proof. intros a b. unfold ranks_before. apply _. Defined.

Definition search (q : ResolvedQuery) (index : list Recipe) : list ScoredResult :=
  let survivors := List.filter (fun r => negb (excluded q r)) index in
  take (Z.to_nat (effective_limit q))
    (merge_sort ranks_before (map (score_recipe q) survivors)).


(** ** Vocabulary of the statements *)

(** A string that is empty or starts with a code unit [trim] keeps. *)
Definition starts_clean (s : jsstring) : bool :=
  match s with [] => true | c :: _ => negb (is_ws c) end.

(** What a term of a comma list looks like. *)
Definition clean_term (t : jsstring) : Prop := t ≠ [] ∧ trim t = t ∧ comma ∉ t.

(** How often the number [id] occurs in an array. *)
Definition occurrences (id : Z) (arr : list jsval) : nat :=
  length (List.filter (strict_eq_num id) arr).

(** [arr] without the first occurrence of [id]: what [splice(i, 1)] leaves
    when [i] is [indexOf(id)]. *)
Fixpoint remove_first (id : Z) (arr : list jsval) : list jsval :=
  match arr with
  | [] => []
  | v :: r => if strict_eq_num id v then r else v :: remove_first id r
  end.

(** The array a toggle stores. *)
Definition toggled (id : Z) (arr : list jsval) : list jsval :=
  if includes arr id then remove_first id arr else arr ++ [VNum id].

(** What a toggle is expected to do on a storage: it succeeds with a verdict
    [b]; membership of [id] is flipped and is [b] afterwards; a second toggle
    succeeds and leaves every id a favorite exactly when it was one. *)
Definition toggles_membership (id : Z) (ls : storage) : Prop :=
  exists b ls',
    toggleFavorite id ls = Normal (b, ls')
    ∧ isFavorite id ls = Normal (negb b)
    ∧ isFavorite id ls' = Normal b
    ∧ exists b2 ls2,
        toggleFavorite id ls' = Normal (b2, ls2)
        ∧ forall x, isFavorite x ls2 = isFavorite x ls.

(** The resolution that puts exact labels first: whenever some concept of
    the feed has the typed term as its label, the input ends up holding the
    label of such a concept. *)
Definition label_match_wins (toLowerCase : jsstring -> jsstring)
    (data : list concept) (input_value : jsstring) : Prop :=
  let val := typed_term toLowerCase input_value in
  val ≠ [] ->
  (exists x, x ∈ data ∧ label_matches toLowerCase val x = true) ->
  exists y, y ∈ data ∧ label_matches toLowerCase val y = true
            ∧ on_change toLowerCase data input_value = label y.

(** One option per entry with a non-empty [term] among the first 1000, its
    value that [term]. *)
Definition options_by_term (ta : list feed_entry) : list jsstring :=
  omap (fun x => match fe_term x with
                 | Some (c :: s) => Some (c :: s)
                 | _ => None
                 end) (take 1000 ta).

(** The code units [escapeHtml] must not let through. *)
Definition markup_free (c : N) : Prop :=
  c ≠ 60%N ∧ c ≠ 62%N ∧ c ≠ 34%N ∧ c ≠ 39%N.

(** ** Sample inputs *)

(** A form with nothing but a limit field holding [v]. *)
Definition limit_form (v : string) : form :=
  {| have_by_id := None; have_by_name := None;
     avoid_by_id := None; avoid_by_name := None;
     diet_checked := []; allergen_checked := [];
     limit_el := Some {| value := js v; checked := false |};
     attach_labels_el := None |}.

(** A form whose limit field holds 310 nines, a numeral beyond the range of
    doubles. *)
Definition huge_limit_form : form :=
  {| have_by_id := None; have_by_name := None;
     avoid_by_id := None; avoid_by_name := None;
     diet_checked := []; allergen_checked := [];
     limit_el := Some {| value := repeat 57%N 310; checked := false |};
     attach_labels_el := None |}.

(** A feed in which a later entry has the label that an earlier one lists
    as a synonym. *)
Definition eggplant_feed : list concept :=
  [ {| label := js "aubergine"; synonyms := Some [Some (js "eggplant"); None] |};
    {| label := js "Eggplant"; synonyms := Some [] |} ].

(** A bootstrap feed: an entry with a [q] only, one with a [term], and one
    with an empty [term]. *)
Definition rice_feed : list feed_entry :=
  [ {| fe_id := PNum 1; fe_term := None; fe_q := Some (js "rice") |};
    {| fe_id := PNum 2; fe_term := Some (js "dholl"); fe_q := None |};
    {| fe_id := PNum 3; fe_term := Some []; fe_q := None |} ].

(** A small recipe index. *)
Definition demo_index : list Recipe :=
  [ {| recipe_id := "R003"; recipe_ingredients := [["a"]; ["b"]];
       recipe_diet_tags := []; recipe_allergens := [] |};
    {| recipe_id := "R001"; recipe_ingredients := [["a"]; ["b"]];
       recipe_diet_tags := []; recipe_allergens := [] |};
    {| recipe_id := "R002"; recipe_ingredients := [["a"]; ["c"]; ["d"]];
       recipe_diet_tags := []; recipe_allergens := ["nut"] |};
    {| recipe_id := "R004"; recipe_ingredients := [["a"]];
       recipe_diet_tags := []; recipe_allergens := [] |} ].

Definition demo_query (limit : option Z) : ResolvedQuery :=
  {| q_have := ["a"]; q_avoid := []; q_diet_filters := [];
     q_avoid_allergens := ["nut"]; q_limit := limit |}.

(** ** Runs of the storage helpers *)

(** A run of calls [toggleFavorite(id)], one after the other on the same
    storage, for the recipe indexes [ids]. Each call is made by a listener of
    its own run, so a call that throws (it does so before it writes) leaves
    the storage as it was and the later calls are made all the same. A click
    on a heart button makes one such call for every click listener that sees
    it. *)
Fixpoint toggle_all (ids : list Z) (ls : storage) : storage :=
  match ids with
  | [] => ls
  | id :: r =>
      match toggleFavorite id ls with
      | Normal (_, ls') => toggle_all r ls'
      | Throw _ => toggle_all r ls
      end
  end.

(** How many calls of a run are for [x]. *)
Definition calls_for (x : Z) (ids : list Z) : nat :=
  length (List.filter (Z.eqb x) ids).

(** No id is stored twice. *)
Definition unrepeated (arr : list jsval) : Prop :=
  forall x, (occurrences x arr <= 1)%nat.

(** The two Web Storage areas of a page. *)
Record stores : Type := { st_local : storage; st_session : storage }.

Definition SS_lastQuery : string := "mrf:last-query".

(** [saveLastSearch(payload)] with both of its writes: the local-storage copy
    and the session copy that the results page falls back on. *)
Definition saveLastSearch_stores (payload : jsval) (st : stores) : stores :=
  {| st_local := saveLastSearch payload (st_local st);
     st_session := setItem (st_session st) SS_lastQuery (JSON_stringify payload) |}.

(** The Number of opposite sign. *)
Definition neg_prim (p : primitive) : primitive :=
  match p with
  | PNum y => PNum (- y)
  | PInf b => PInf (negb b)
  | _ => p
  end.

(** The sign that [parseInt] reads off the trimmed text, and the text after
    it. *)
Definition strip_sign (s : jsstring) : Z * jsstring :=
  match s with
  | c :: r =>
      if (c =? 45)%N then (-1, r) else if (c =? 43)%N then (1, r) else (1, s)
  | [] => (1, [])
  end.

(** A code unit that [escapeHtml] keeps as it is. *)
Definition plain_unit (c : N) : bool :=
  negb ((c =? 38) || (c =? 60) || (c =? 62) || (c =? 34) || (c =? 39))%N.

(** How often a code unit occurs in a string. *)
Definition count_unit (c : N) (s : jsstring) : nat := count_occ N.eq_dec s c.

(** ** The ingredient list of a result card (page script, lines 224-231) *)

(** An entry of [ingredients_adapted]; an absent property is [undefined]. *)
Record ingredient : Type := {
  ing_id : primitive;
  ing_label : primitive;
  ing_qty : primitive
}.

(** [a || b] on primitives. *)
Definition prim_or (a b : primitive) : primitive :=
  if truthy_prim a then a else b.

(** The list item of one ingredient: its label, or else its id, escaped, a
    space, and the escaped quantity in a [span] of class [qty] when there is
    one. *)
Definition ingredient_item (ing : ingredient) : jsstring :=
  let label := prim_or (ing_label ing) (ing_id ing) in
  let qty :=
    if truthy_prim (ing_qty ing)
    then js "<span class=" ++ [34%N] ++ js "qty" ++ [34%N] ++ js ">"
           ++ escapeHtml (ing_qty ing) ++ js "</span>"
    else [] in
  js "<li>" ++ escapeHtml label ++ [space] ++ qty ++ js "</li>".

(** [ingList]: the items of the first five ingredients, joined by the empty
    string; [None] is a missing [ingredients_adapted]. *)
Definition ingList (ingredients_adapted : option (list ingredient)) : jsstring :=
  concat (map ingredient_item (take 5 (default [] ingredients_adapted))).

(** The ingredients of the first five that carry a quantity. *)
Definition with_qty (ings : list ingredient) : nat :=
  length (List.filter (fun ing => truthy_prim (ing_qty ing)) ings).

(** ** [fetchJSON] (page script, lines 49-66) *)

(** An object as the list of its own properties in the order they are
    enumerated, each key once. *)
Abbreviation object := (list (string * jsval)).

Fixpoint obj_get (k : string) (o : object) : option jsval :=
  match o with
  | [] => None
  | (k', v) :: r => if String.eqb k' k then Some v else obj_get k r
  end.

(** [o.k]: an absent property reads as [undefined]. *)
Definition prop (o : object) (k : string) : jsval :=
  default (Prim PUndefined) (obj_get k o).

(** Defining property [k] on [o]: an existing property keeps its place and
    takes the new value, a new one goes last. *)
Fixpoint obj_set (k : string) (v : jsval) (o : object) : object :=
  match o with
  | [] => [(k, v)]
  | (k', v') :: r =>
      if String.eqb k' k then (k', v) :: r else (k', v') :: obj_set k v r
  end.

Definition index_key (i : nat) : string :=
  NilZero.string_of_uint (Nat.to_uint i).

(** The own enumerable properties that a spread copies out of a value: the
    fields of an object, the elements of an array and the code units of a
    string under their indexes, nothing for any other primitive. *)
Definition own_props (v : jsval) : object :=
  match v with
  | VObj fields => fields
  | VArr elems => imap (fun i x => (index_key i, x)) elems
  | Prim (PStr s) => imap (fun i c => (index_key i, VStr [c])) s
  | Prim _ => []
  end.

(** [{ ...target, ...src }]: the properties of [src] are defined on
    [target] one after the other. *)
Definition spread (target src : object) : object :=
  foldl (fun t kv => obj_set (fst kv) (snd kv) t) target src.

(** The second argument that [fetchJSON(url, opts)] hands to [fetch]. *)
Definition fetchJSON_init (opts : object) : object :=
  spread
    [ ("headers",
       VObj (spread [("Content-Type", VStr (js "application/json"))]
               (own_props (js_or (prop opts "headers") (VObj [])))) ) ]
    opts.

Record response : Type := {
  res_status : Z;
  res_statusText : jsstring;
  res_body : text
}.

(** [res.ok]: a status from 200 to 299. *)
Definition res_ok (res : response) : bool :=
  (200 <=? res_status res) && (res_status res <=? 299).

(** [res.json()] *)
Definition res_json (res : response) : completion jsval :=
  JSON_parse (Some (res_body res)).

(** [ToString] of a value that holds data only. An array is joined with
    commas, [null] and [undefined] elements giving the empty string. An
    object without a [toString] of its own prints through
    [Object.prototype.toString]; one with such a property, which is data and
    cannot be called, is left with a [valueOf] that is not callable either or
    gives back the object, and the conversion is a [TypeError]. *)
Fixpoint to_string (v : jsval) : completion jsstring :=
  match v with
  | Prim p => Normal (prim_toString p)
  | VArr elems =>
      (fix joined (l : list jsval) : completion jsstring :=
         match l with
         | [] => Normal []
         | x :: r =>
             match (match x with
                    | Prim PUndefined | Prim PNull => Normal []
                    | _ => to_string x
                    end) with
             | Throw e => Throw e
             | Normal sx =>
                 match r with
                 | [] => Normal sx
                 | _ :: _ =>
                     match joined r with
                     | Throw e => Throw e
                     | Normal sr => Normal (sx ++ comma :: sr)
                     end
                 end
             end
         end) elems
  | VObj fields =>
      match obj_get "toString" fields with
      | Some _ => Throw TypeError
      | None => Normal (js "[object Object]")
      end
  end.

(** How the promise of [fetchJSON] settles: with a value, with an error that
    was raised on the way, or with the [Error] that [fetchJSON] builds, given
    by its [message] and the [status] set on it. *)
Inductive settled : Type :=
  | Fulfilled (v : jsval)
  | Rejected (e : js_error)
  | RejectedError (message : jsstring) (status : Z).

(** [data.error] on a value that is not [null]: only an object can own such
    a property. *)
Definition error_of (data : jsval) : jsval :=
  match data with
  | VObj fields => prop fields "error"
  | _ => Prim PUndefined
  end.

(** [data && data.error] for a parsed body. *)
Definition body_error (data : jsval) : jsval :=
  if truthy data then error_of data else data.

(** The template [`${res.status} ${res.statusText}`]. *)
Definition status_line (res : response) : jsstring :=
  number_toString (res_status res) ++ [space] ++ res_statusText res.

(** [fetchJSON] once [fetch] has settled: [net] is the response, or the
    error of a request that failed. [new Error(msg)] keeps [ToString] of
    [msg] as its message, and a [msg] that cannot be converted makes the
    constructor throw. *)
Definition fetchJSON_settle (net : completion response) : settled :=
  match net with
  | Throw e => Rejected e
  | Normal res =>
      if res_ok res then
        match res_json res with
        | Normal v => Fulfilled v
        | Throw e => Rejected e
        end
      else
        let msg :=
          match res_json res with
          | Normal data =>
              if truthy (body_error data) then error_of data
              else VStr (status_line res)
          | Throw _ => VStr (status_line res)
          end in
        match to_string msg with
        | Normal message => RejectedError message (res_status res)
        | Throw e => Rejected e
        end
  end.

(** ** The typeahead cache (backend/static/js/main.js, lines 4-11) *)

(** One call of [loadTypeahead()]: what it returns, what [__typeaheadCache]
    holds afterwards, and whether it fetched. [server] is what the fetch of
    [/typeahead.json] and the parse of its body would give at that time. *)
Record load : Type := {
  load_result : completion jsval;
  load_cache : jsval;
  load_fetched : bool
}.

Definition loadTypeahead (cache : jsval) (server : completion jsval) : load :=
  if truthy cache then
    {| load_result := Normal cache; load_cache := cache; load_fetched := false |}
  else
    match server with
    | Normal v => {| load_result := Normal v; load_cache := v; load_fetched := true |}
    | Throw e => {| load_result := Throw e; load_cache := cache; load_fetched := true |}
    end.

(** Calls of [loadTypeahead()] one after the other, each against the answer
    the server has at its time. *)
Fixpoint load_all (cache : jsval) (servers : list (completion jsval)) : list load :=
  match servers with
  | [] => []
  | server :: r =>
      let step := loadTypeahead cache server in
      step :: load_all (load_cache step) r
  end.

(** The options of the search request of the page script (line 349), with a
    sample body. *)
Definition post_search_opts : object :=
  [ ("method", VStr (js "POST")); ("body", VStr (js "{}")) ].

(** * Properties *)

(** ** Strings *)

Section StringFacts.
Implicit Types (s t : jsstring) (c : N).

Lemma trimStart_clean s : starts_clean (trimStart s) = true.
Proof.
  induction s as [|c r IH]; simpl; [done|].
  destruct (is_ws c) eqn:E; [done|]. simpl. by rewrite E.
Qed.

Lemma trimStart_fixed s : starts_clean s = true -> trimStart s = s.
Proof. destruct s as [|c r]; simpl; [done|]. by destruct (is_ws c). Qed.

Lemma trimStart_snoc s c :
  is_ws c = false -> trimStart (s ++ [c]) = trimStart s ++ [c].
Proof.
  intros Hc. induction s as [|d r IH]; simpl.
  - by rewrite Hc.
  - by destruct (is_ws d).
Qed.

Lemma trimStart_suffix s : suffix (trimStart s) s.
Proof.
  induction s as [|c r IH]; simpl; [done|].
  destruct (is_ws c); [by apply suffix_cons_r | done].
Qed.

Lemma trimEnd_prefix s : prefix (trimEnd s) s.
Proof.
  unfold trimEnd. destruct (trimStart_suffix (reverse s)) as [k Hk].
  exists (reverse k).
  rewrite <- (reverse_involutive s), Hk at 1.
  by rewrite reverse_app.
Qed.

Lemma trimEnd_clean s : starts_clean s = true -> starts_clean (trimEnd s) = true.
Proof.
  destruct s as [|c r]; [done|]. simpl. intros Hc.
  apply negb_true_iff in Hc. unfold trimEnd.
  rewrite reverse_cons, trimStart_snoc, reverse_snoc by done.
  simpl. by rewrite Hc.
Qed.

Lemma trimEnd_idem s : trimEnd (trimEnd s) = trimEnd s.
Proof.
  unfold trimEnd. rewrite reverse_involutive.
  by rewrite (trimStart_fixed _ (trimStart_clean _)).
Qed.

Lemma trim_idem s : trim (trim s) = trim s.
Proof.
  unfold trim.
  rewrite (trimStart_fixed (trimEnd (trimStart s))).
  - apply trimEnd_idem.
  - apply trimEnd_clean, trimStart_clean.
Qed.

Lemma trim_infix s : exists pre post, s = pre ++ trim s ++ post.
Proof.
  unfold trim. destruct (trimStart_suffix s) as [pre Hpre].
  destruct (trimEnd_prefix (trimStart s)) as [post Hpost].
  exists pre, post. by rewrite <- Hpost.
Qed.

Lemma trim_elem s c : c ∈ trim s -> c ∈ s.
Proof.
  destruct (trim_infix s) as (pre & post & E). intros H.
  rewrite E, !elem_of_app. auto.
Qed.

Lemma trim_cons_ws s c : is_ws c = true -> trim (c :: s) = trim s.
Proof. intros H. unfold trim. simpl. by rewrite H. Qed.

(** [split] never returns the empty array. *)
Lemma split_cons sep s : exists p ps, split sep s = p :: ps.
Proof.
  induction s as [|c r (p & ps & E)]; simpl; [by eexists _, _|].
  destruct (c =? sep)%N; [by eexists _, _|]. rewrite E. by eexists _, _.
Qed.

Lemma split_free sep s : sep ∉ s -> split sep s = [s].
Proof.
  induction s as [|c r IH]; simpl; [done|]. intros H.
  rewrite not_elem_of_cons in H. destruct H as [Hc Hr].
  destruct (N.eqb_spec c sep) as [->|_]; [done|]. by rewrite IH.
Qed.

Lemma split_app sep s rest :
  sep ∉ s -> split sep (s ++ sep :: rest) = s :: split sep rest.
Proof.
  induction s as [|c r IH]; simpl; intros H.
  - by rewrite N.eqb_refl.
  - rewrite not_elem_of_cons in H. destruct H as [Hc Hr].
    destruct (N.eqb_spec c sep) as [->|_]; [done|]. by rewrite IH.
Qed.

Lemma split_pieces_free sep s p : p ∈ split sep s -> sep ∉ p.
Proof.
  revert p. induction s as [|c r IH]; simpl; intros p.
  - rewrite list_elem_of_singleton. intros ->. apply not_elem_of_nil.
  - destruct (N.eqb_spec c sep) as [->|Hne].
    + rewrite elem_of_cons. intros [->|H]; [apply not_elem_of_nil | by apply IH].
    + destruct (split_cons sep r) as (q & qs & E). rewrite E in *.
      rewrite elem_of_cons. intros [->|H].
      * rewrite not_elem_of_cons. split; [done|]. apply IH, elem_of_cons. auto.
      * apply IH, elem_of_cons. auto.
Qed.

(** Every piece of [split] is a contiguous part of the string. *)
Lemma split_pieces_infix sep s p :
  p ∈ split sep s -> exists pre post, s = pre ++ p ++ post.
Proof.
  revert p. induction s as [|c r IH]; simpl; intros p.
  - rewrite list_elem_of_singleton. intros ->. by exists [], [].
  - destruct (N.eqb_spec c sep) as [->|Hne].
    + rewrite elem_of_cons. intros [->|H]; [by exists [], (sep :: r)|].
      destruct (IH _ H) as (pre & post & ->). by exists (sep :: pre), post.
    + destruct (split_cons sep r) as (q & qs & E). rewrite E in *.
      rewrite elem_of_cons. intros [->|H].
      * assert (split_head : exists post, r = q ++ post).
        { clear IH. revert q qs E. induction r as [|d r' IHr]; simpl; intros q qs E.
          - injection E as <- <-. by exists [].
          - destruct (d =? sep)%N.
            + injection E as <- <-. by eexists.
            + destruct (split_cons sep r') as (q' & qs' & E'). rewrite E' in E.
              injection E as <- <-. destruct (IHr _ _ E') as [post ->].
              by exists post. }
        destruct split_head as [post ->]. by exists [], post.
      * destruct (IH p) as (pre & post & ->); [apply elem_of_cons; auto|].
        by exists (c :: pre), post.
Qed.
End StringFacts.

(** ** Comma lists and the chip cleanup *)

Section CommaLists.
Implicit Types (v t : jsstring) (ts : list jsstring).

Lemma parseCommaList_elem v t :
  t ∈ parseCommaList v <-> t ≠ [] ∧ exists p, t = trim p ∧ p ∈ split comma v.
Proof.
  unfold parseCommaList. rewrite list_elem_of_filter.
  change (map trim (split comma v)) with (trim <$> split comma v).
  rewrite list_elem_of_fmap. split; (intros [H ?]; split; [by destruct t | done]).
Qed.

Lemma parseCommaList_clean v t : t ∈ parseCommaList v -> clean_term t.
Proof.
  rewrite parseCommaList_elem. intros (Hne & p & -> & Hp).
  repeat split; [done | apply trim_idem |].
  intros Hc. by apply (split_pieces_free comma v p Hp), trim_elem.
Qed.

Lemma split_join ts :
  Forall (fun t => comma ∉ t) ts ->
  split comma (join [comma; space] ts) =
    match ts with [] => [[]] | t :: r => t :: map (cons space) r end.
Proof.
  induction 1 as [|t r Ht Hr IH]; [done|].
  destruct r as [|t2 r]; [by apply split_free|].
  change (join [comma; space] (t :: t2 :: r))
    with (t ++ comma :: space :: join [comma; space] (t2 :: r)).
  rewrite split_app by done. f_equal.
  change (split comma (space :: ?x)) with
    (match split comma x with [] => [[space]] | p :: ps => (space :: p) :: ps end).
  by rewrite IH.
Qed.

Lemma trim_space_clean ts :
  Forall clean_term ts -> map trim (map (cons space) ts) = ts.
Proof.
  induction 1 as [|t r (_ & Ht & _) _ IH]; [done|]. simpl.
  rewrite IH. f_equal. by rewrite trim_cons_ws.
Qed.

Lemma filter_nonempty_clean ts :
  Forall clean_term ts -> filter (fun s => Is_true (nonempty s)) ts = ts.
Proof.
  induction 1 as [|t r (Hne & _) _ IH]; [done|].
  rewrite filter_cons_True; [by rewrite IH | by destruct t].
Qed.

(** Parsing the joined text of clean terms gives the terms back. *)
Lemma parseCommaList_join ts :
  Forall clean_term ts -> parseCommaList (join [comma; space] ts) = ts.
Proof.
  intros H. unfold parseCommaList. rewrite split_join.
  - destruct H as [|t r (Hne & Ht & Hc) Hr]; [done|]. simpl.
    rewrite trim_space_clean, Ht by done.
    rewrite filter_cons_True by by destruct t.
    by rewrite filter_nonempty_clean.
  - eapply Forall_impl; [exact H|]. by intros t (_ & _ & ?).
Qed.

Lemma set_spread_elem seen ts t :
  t ∈ set_spread seen ts -> t ∈ ts ∧ t ∉ seen.
Proof.
  revert seen. induction ts as [|x r IH]; simpl; intros seen.
  - by intros ?%elem_of_nil.
  - destruct (decide (x ∈ seen)) as [Hin|Hout].
    + intros [? ?]%IH. split; [apply elem_of_cons; auto | done].
    + rewrite elem_of_cons. intros [->|[? Hs]%IH].
      * split; [apply elem_of_cons; auto | done].
      * split; [apply elem_of_cons; auto|].
        intros ?. apply Hs, elem_of_cons. auto.
Qed.

Lemma set_spread_NoDup seen ts : NoDup (set_spread seen ts).
Proof.
  revert seen. induction ts as [|x r IH]; simpl; intros seen; [constructor|].
  destruct (decide (x ∈ seen)); [done|].
  apply NoDup_cons. split; [|done].
  intros [_ Hx]%set_spread_elem. apply Hx, elem_of_cons. auto.
Qed.

Lemma set_spread_fixed seen ts :
  NoDup ts -> (forall t, t ∈ ts -> t ∉ seen) -> set_spread seen ts = ts.
Proof.
  intros Hnd. revert seen.
  induction Hnd as [|x r Hx Hr IH]; simpl; intros seen Hseen; [done|].
  destruct (decide (x ∈ seen)) as [Hin|_].
  - exfalso. apply (Hseen x); [apply elem_of_cons; auto | done].
  - f_equal. apply IH. intros t Ht. rewrite not_elem_of_cons. split.
    + by intros ->.
    + apply Hseen, elem_of_cons. auto.
Qed.

Lemma unique_fixed ts : NoDup ts -> unique ts = ts.
Proof.
  intros H. apply set_spread_fixed; [done|]. intros t _. apply not_elem_of_nil.
Qed.
End CommaLists.

(** C10. The chip cleanup, which rewrites an input with the distinct terms of
    its comma list joined by a comma and a space, is idempotent: cleaning a
    cleaned text changes nothing. *)
Theorem chip_cleanup_idempotent (v : jsstring) :
  chip_cleanup (chip_cleanup v) = chip_cleanup v.
Proof.
  unfold chip_cleanup.
  set (ts := unique (parseCommaList v)).
  assert (Hclean : Forall clean_term ts).
  { apply Forall_forall. intros t [Ht _]%set_spread_elem.
    by apply parseCommaList_clean with v. }
  rewrite parseCommaList_join by done.
  rewrite unique_fixed; [done | apply set_spread_NoDup].
Qed.

(** C4, as the code has it. Every term that [parseCommaList] produces is
    non-empty, free of commas, trimmed of leading and trailing whitespace,
    and is otherwise a contiguous part of the text as typed: letter case and
    inner whitespace are kept. *)
Theorem parseCommaList_terms (v t : jsstring) :
  t ∈ parseCommaList v ->
  t ≠ [] ∧ trim t = t ∧ (comma ∉ t) ∧ (exists pre post, v = pre ++ t ++ post).
Proof.
  intros H. destruct (parseCommaList_clean v t H) as (Hne & Ht & Hc).
  repeat split; try done.
  apply parseCommaList_elem in H as (_ & p & -> & Hp).
  destruct (split_pieces_infix _ _ _ Hp) as (pre & post & ->).
  destruct (trim_infix p) as (pre' & post' & E).
  exists (pre ++ pre'), (post' ++ post).
  rewrite E at 1. by rewrite <- !app_assoc.
Qed.

Lemma parseCommaList_terms_witness :
  let t := js "Dholl  Puri" in
  t ≠ [] ∧ trim t = t ∧ (comma ∉ t)
  ∧ (exists pre post, js " Dholl  Puri ,riz" = pre ++ t ++ post).
Proof.
  apply (parseCommaList_terms (js " Dholl  Puri ,riz") (js "Dholl  Puri")).
  vm_compute. apply list_elem_of_here.
Defined.

(** C4, as stated, fails: the term keeps its capital letters and its double
    space. *)
Lemma parseCommaList_not_normalized :
  ~ (forall v t : jsstring, t ∈ parseCommaList v ->
       trim t = t ∧ ascii_toLowerCase t = t ∧ collapse_ws t = t).
Proof.
  intros H.
  destruct (H (js "Dholl  Puri") (js "Dholl  Puri")) as (_ & Hlow & _).
  - vm_compute. apply list_elem_of_here.
  - vm_compute in Hlow. discriminate Hlow.
Qed.

(** ** Local storage *)

Section Favorites.
Implicit Types (arr : list jsval) (ls : storage) (id x k : Z).

Lemma getFavorites_set arr ls : getFavorites (setFavorites arr ls) = VArr arr.
Proof.
  unfold getFavorites, setFavorites, getItem, setItem.
  by rewrite lookup_insert_eq.
Qed.

Lemma includes_occurrences id arr :
  includes arr id = true <-> (0 < occurrences id arr)%nat.
Proof.
  unfold includes, occurrences. induction arr as [|v r IH]; simpl.
  - split; [done | lia].
  - destruct (strict_eq_num id v); simpl; [split; [lia | done] | done].
Qed.

Lemma includes_snoc arr id x :
  includes (arr ++ [VNum id]) x = includes arr x || (id =? x).
Proof.
  unfold includes. rewrite existsb_app. simpl. by rewrite orb_false_r.
Qed.

(** [indexOf] answers [-1] exactly when the id is absent; otherwise
    [splice] at its answer removes the first occurrence. *)
Lemma indexOf_from_spec k arr id :
  0 <= k ->
  (indexOf_from k arr id = -1 ∧ includes arr id = false)
  ∨ (k <= indexOf_from k arr id ∧ includes arr id = true
     ∧ delete (Z.to_nat (indexOf_from k arr id - k)) arr = remove_first id arr).
Proof.
  revert k. induction arr as [|v r IH]; simpl; intros k Hk; [by left|].
  destruct (strict_eq_num id v) eqn:E; simpl.
  - right. rewrite Z.sub_diag. split_and!; [lia | done | done].
  - destruct (IH (k + 1)) as [[-> Hi]|(Hle & Hi & Hd)]; [lia | by left |].
    right. split_and!; [lia | done |].
    replace (Z.to_nat (indexOf_from (k + 1) r id - k))
      with (S (Z.to_nat (indexOf_from (k + 1) r id - (k + 1)))) by lia.
    simpl. by rewrite Hd.
Qed.

Lemma indexOf_spec arr id :
  (indexOf arr id = -1 ∧ includes arr id = false)
  ∨ (indexOf arr id ≠ -1 ∧ includes arr id = true
     ∧ delete (Z.to_nat (indexOf arr id)) arr = remove_first id arr).
Proof.
  unfold indexOf. destruct (indexOf_from_spec 0 arr id) as [?|(? & ? & Hd)];
    [lia | by left |].
  right. rewrite Z.sub_0_r in Hd. split_and!; [lia | done | done].
Qed.

Lemma occurrences_remove_first id x arr :
  occurrences x (remove_first id arr) =
    if bool_decide (x = id) then pred (occurrences x arr) else occurrences x arr.
Proof.
  unfold occurrences. induction arr as [|v r IH]; simpl; [by case_bool_decide|].
  destruct (strict_eq_num id v) eqn:E.
  - destruct v as [[| | |n| |]| |]; try done. simpl in E.
    apply Z.eqb_eq in E as ->. simpl.
    case_bool_decide as Hx.
    + subst. by rewrite Z.eqb_refl.
    + by destruct (Z.eqb_spec id x) as [->|].
  - simpl. destruct (strict_eq_num x v) eqn:Ex; simpl; rewrite IH.
    + case_bool_decide as Hx; [|done]. subst. congruence.
    + done.
Qed.

Lemma occurrences_snoc id x arr :
  occurrences x (arr ++ [VNum id]) =
    (occurrences x arr + if bool_decide (x = id) then 1 else 0)%nat.
Proof.
  unfold occurrences. rewrite List.filter_app, length_app. simpl.
  case_bool_decide as Hx.
  - subst. by rewrite Z.eqb_refl.
  - by destruct (Z.eqb_spec id x) as [->|].
Qed.

Lemma includes_ext arr1 arr2 x :
  ((0 < occurrences x arr1)%nat <-> (0 < occurrences x arr2)%nat) ->
  includes arr1 x = includes arr2 x.
Proof.
  rewrite <- !includes_occurrences.
  destruct (includes arr1 x), (includes arr2 x); intros [H1 H2]; try done;
    [symmetry; by apply H1 | by apply H2].
Qed.

Lemma toggleFavorite_array id ls arr :
  getFavorites ls = VArr arr ->
  toggleFavorite id ls =
    Normal (includes (toggled id arr) id, setFavorites (toggled id arr) ls).
Proof.
  intros E. unfold toggleFavorite, toggled. rewrite E.
  destruct (indexOf_spec arr id) as [[-> ->]|(Hne & -> & ->)]; [done|].
  by destruct (Z.eqb_spec (indexOf arr id) (-1)).
Qed.

Lemma occurrences_toggled id x arr :
  occurrences x (toggled id arr) =
    if bool_decide (x = id)
    then (if includes arr id then pred (occurrences id arr) else 1%nat)
    else occurrences x arr.
Proof.
  unfold toggled. destruct (includes arr id) eqn:E.
  - rewrite occurrences_remove_first. by case_bool_decide; subst.
  - rewrite occurrences_snoc. case_bool_decide; subst; [|lia].
    assert (occurrences id arr = 0%nat); [|lia].
    destruct (occurrences id arr) eqn:Ho; [done|].
    assert (includes arr id = true) by (apply includes_occurrences; lia).
    congruence.
Qed.
End Favorites.

Lemma isFavorite_array (x : Z) (ls : storage) (arr : list jsval) :
  getFavorites ls = VArr arr -> isFavorite x ls = Normal (includes arr x).
Proof. intros E. unfold isFavorite. by rewrite E. Qed.

(** On any stored array a toggle succeeds, and its verdict is what
    [isFavorite] answers afterwards. *)
Lemma toggleFavorite_verdict (id : Z) (ls : storage) (arr : list jsval) :
  getFavorites ls = VArr arr ->
  exists b ls', toggleFavorite id ls = Normal (b, ls') ∧ isFavorite id ls' = Normal b.
Proof.
  intros E. eexists _, _. split; [by apply toggleFavorite_array|].
  apply isFavorite_array, getFavorites_set.
Qed.

(** Toggles keep ids unrepeated: from the empty store, every stored array
    holds each id at most once. *)
Lemma toggled_distinct (id : Z) (arr : list jsval) :
  (forall x, (occurrences x arr <= 1)%nat) ->
  forall x, (occurrences x (toggled id arr) <= 1)%nat.
Proof.
  intros H x. rewrite occurrences_toggled.
  case_bool_decide; [|done]. destruct (includes arr id); [|done].
  specialize (H id). lia.
Qed.

(** C6, as the code has it. When [id] occurs at most once in the stored
    favorites array, [toggleFavorite(id)] adds it when absent and removes it
    when present, returns [true] exactly when [id] is a favorite afterwards
    (as [isFavorite] then answers), and a second [toggleFavorite(id)] leaves
    the same set of favorite ids as before the first. *)
Theorem toggleFavorite_spec (id : Z) (ls : storage) (arr : list jsval) :
  getFavorites ls = VArr arr ->
  (occurrences id arr <= 1)%nat ->
  toggles_membership id ls.
Proof.
  intros E Hocc. unfold toggles_membership.
  set (arr1 := toggled id arr). set (ls1 := setFavorites arr1 ls).
  assert (E1 : getFavorites ls1 = VArr arr1) by apply getFavorites_set.
  set (arr2 := toggled id arr1). set (ls2 := setFavorites arr2 ls1).
  assert (E2 : getFavorites ls2 = VArr arr2) by apply getFavorites_set.
  assert (Hflip : includes arr1 id = negb (includes arr id)).
  { destruct (includes arr id) eqn:Hi; simpl.
    - apply not_true_is_false. rewrite includes_occurrences.
      unfold arr1. rewrite occurrences_toggled, bool_decide_eq_true_2, Hi by done.
      lia.
    - apply includes_occurrences. unfold arr1.
      rewrite occurrences_toggled, bool_decide_eq_true_2, Hi by done. lia. }
  exists (includes arr1 id), ls1. split_and!.
  - by apply toggleFavorite_array.
  - rewrite (isFavorite_array _ _ _ E), Hflip. by rewrite negb_involutive.
  - by apply isFavorite_array.
  - exists (includes arr2 id), ls2. split; [by apply toggleFavorite_array|].
    intros x. rewrite (isFavorite_array _ _ _ E2), (isFavorite_array _ _ _ E).
    f_equal. apply includes_ext. unfold arr2.
    rewrite occurrences_toggled. case_bool_decide as Hx; [subst x|].
    + rewrite Hflip. unfold arr1. rewrite occurrences_toggled.
      rewrite bool_decide_eq_true_2 by done.
      destruct (includes arr id) eqn:Hi; simpl.
      * apply includes_occurrences in Hi. lia.
      * assert (~ (0 < occurrences id arr)%nat); [|simpl; lia].
        rewrite <- includes_occurrences. congruence.
    + unfold arr1. rewrite occurrences_toggled.
      by rewrite bool_decide_eq_false_2.
Qed.

Lemma toggleFavorite_spec_witness :
  toggles_membership 7 {[ LS_favorites := Json (VArr [VNum 3; VNum 7]) ]}.
Proof.
  apply (toggleFavorite_spec 7 _ [VNum 3; VNum 7]).
  - reflexivity.
  - vm_compute. lia.
Defined.

(** C6, as stated, fails on a stored array that repeats the id: the toggle
    removes one occurrence only, so the id is still a favorite. *)
Lemma toggleFavorite_repeated_id :
  getFavorites {[ LS_favorites := Json (VArr [VNum 7; VNum 7]) ]}
    = VArr [VNum 7; VNum 7]
  ∧ ~ toggles_membership 7 {[ LS_favorites := Json (VArr [VNum 7; VNum 7]) ]}.
Proof.
  split; [reflexivity|].
  intros (b & ls' & Ht & Hbefore & _).
  rewrite (toggleFavorite_array 7 _ [VNum 7; VNum 7]) in Ht by reflexivity.
  injection Ht as <- _.
  rewrite (isFavorite_array 7 _ [VNum 7; VNum 7]) in Hbefore by reflexivity.
  vm_compute in Hbefore. discriminate Hbefore.
Qed.




(** ** Search payload *)

Lemma parseInt10_nil : parseInt10 [] = None.
Proof. reflexivity. Qed.

(** A Number read by [parseInt] is the double of an integer or an infinity. *)
Lemma round_double_number (z : Z) :
  (exists n, round_double z = PNum n) ∨ (exists b, round_double z = PInf b).
Proof.
  unfold round_double. destruct (Z.abs z <? 2 ^ 53); [by left; eexists|].
  cbv zeta. match goal with |- context [if ?c then PInf _ else _] => destruct c end;
    [right | left]; by eexists.
Qed.

(** The limit of the payload by cases: 20 unless the field holds a numeral
    that reads as a Number other than zero, which is then passed on. *)
Lemma collect_limit_cases (f : form) :
  collect_limit f =
    match limit_el f with
    | Some e => match parseInt10 (value e) with
                | Some n => if truthy_prim n then n else PNum 20
                | None => PNum 20
                end
    | None => PNum 20
    end.
Proof.
  unfold collect_limit. destruct (limit_el f) as [e|]; [|done].
  destruct (value e); [by rewrite parseInt10_nil | done].
Qed.

(** A missing field, an empty or non-numeric value and zero give 20. *)
Lemma collect_limit_default (f : form) :
  match limit_el f with
  | None => True
  | Some e => parseInt10 (value e) = None ∨ parseInt10 (value e) = Some (PNum 0)
  end ->
  collect_limit f = PNum 20.
Proof.
  rewrite collect_limit_cases. destruct (limit_el f) as [e|]; [|done].
  by intros [-> | ->].
Qed.

(** A positive limit is used as given. *)
Lemma collect_limit_positive (f : form) (e : element) (n : Z) :
  limit_el f = Some e -> parseInt10 (value e) = Some (PNum n) -> 0 < n ->
  collect_limit f = PNum n.
Proof.
  intros He Hn Hpos. rewrite collect_limit_cases, He, Hn. simpl.
  destruct (Z.eqb_spec n 0); [lia | done].
Qed.

(** A negative limit is passed on as well. *)
Lemma collect_limit_negative (f : form) (e : element) (n : Z) :
  limit_el f = Some e -> parseInt10 (value e) = Some (PNum n) -> n < 0 ->
  collect_limit f = PNum n.
Proof.
  intros He Hn Hneg. rewrite collect_limit_cases, He, Hn. simpl.
  destruct (Z.eqb_spec n 0); [lia | done].
Qed.

(** C2 on the code: a limit field that reads as a negative integer is sent
    with that integer as the payload's [limit]; it is not replaced by 20. *)
Theorem negative_limit_sent (toLowerCase : jsstring -> jsstring)
    (f : form) (e : element) (n : Z) :
  limit_el f = Some e -> parseInt10 (value e) = Some (PNum n) -> n < 0 ->
  payload_limit (collectSearchPayload toLowerCase f) = Some (VNum n)
  ∧ n ≠ 20.
Proof.
  intros He Hn Hneg. split; [|lia].
  unfold collectSearchPayload, payload_limit. cbn [List.find fst snd String.eqb].
  simpl. by rewrite (collect_limit_negative f e n).
Qed.

Lemma negative_limit_sent_witness :
  payload_limit (collectSearchPayload ascii_toLowerCase (limit_form "-5"))
    = Some (VNum (-5))
  ∧ -5 ≠ 20.
Proof.
  apply (negative_limit_sent ascii_toLowerCase (limit_form "-5")
           {| value := js "-5"; checked := false |} (-5));
    [reflexivity | reflexivity | lia].
Defined.

Lemma payload_limit_collect (toLowerCase : jsstring -> jsstring) (f : form) :
  payload_limit (collectSearchPayload toLowerCase f) = Some (Prim (collect_limit f)).
Proof. reflexivity. Qed.

(** The limit is a Number other than zero: 20, or what [parseInt] read. *)
Lemma collect_limit_number (f : form) :
  (exists n, n ≠ 0 ∧ collect_limit f = PNum n)
  ∨ (exists b e, limit_el f = Some e ∧ parseInt10 (value e) = Some (PInf b)
                 ∧ collect_limit f = PInf b).
Proof.
  rewrite collect_limit_cases. destruct (limit_el f) as [e|]; [|by left; exists 20].
  unfold parseInt10. destruct (read_integer (value e)) as [z|] eqn:Ez;
    [|by left; exists 20]. cbn [fmap option_fmap option_map].
  destruct (round_double_number z) as [[n Hn]|[b Hb]].
  - rewrite Hn. simpl. destruct (Z.eqb_spec n 0); left; [by exists 20 | by exists n].
  - rewrite Hb. right. exists b, e. split_and!; [done | | done].
    by rewrite Ez; simpl; rewrite Hb.
Qed.

(** C3, as the code has it. Whatever the form holds, the payload has exactly
    the fields [have], [avoid], [diet], [avoid_allergens], [limit] and
    [attach_labels]; the first four are arrays of strings and
    [attach_labels] is a boolean; [limit] is a Number that is neither [NaN]
    nor zero: an integer, or an infinity when the limit field holds a numeral
    that [parseInt] reads as one. *)
Theorem collectSearchPayload_fields (toLowerCase : jsstring -> jsstring) (f : form) :
  is_search_payload (collectSearchPayload toLowerCase f) = true
  ∧ ((exists n, n ≠ 0
        ∧ payload_limit (collectSearchPayload toLowerCase f) = Some (VNum n)
        ∧ is_search_request (collectSearchPayload toLowerCase f) = true)
     ∨ (exists b e, limit_el f = Some e
          ∧ parseInt10 (value e) = Some (PInf b)
          ∧ payload_limit (collectSearchPayload toLowerCase f)
              = Some (Prim (PInf b)))).
Proof.
  assert (Hstr : forall l : list jsstring,
             is_string_list (VArr (map (fun s => VStr s) l)) = true).
  { intros l. simpl. by induction l. }
  rewrite payload_limit_collect.
  unfold collectSearchPayload, is_search_payload, is_search_request.
  cbn [map fst snd zip_with forallb id].
  rewrite !Hstr, !bool_decide_eq_true_2 by done. cbn [andb].
  destruct (collect_limit_number f) as [(n & Hn & ->)|(b & e & He & Hp & ->)].
  - split; [done|]. left. by exists n.
  - split; [done|]. right. by exists b, e.
Qed.

(** C3, as stated, fails: a limit field of 310 nines reads as [Infinity],
    which becomes the [limit] of the payload and is not an integer. *)
Lemma infinite_limit_payload :
  payload_limit (collectSearchPayload ascii_toLowerCase huge_limit_form)
    = Some (Prim (PInf false))
  ∧ is_search_request (collectSearchPayload ascii_toLowerCase huge_limit_form)
    = false.
Proof. split; by vm_compute. Qed.

(** ** Datalist typeahead *)

Section Resolution.
Variable toLowerCase : jsstring -> jsstring.
Implicit Types (data pre post : list concept) (x m : concept) (val : jsstring).

(** [find] returns the first entry, in feed order, that the test accepts. *)
Lemma find_first val pre m post :
  Forall (fun x => entry_matches toLowerCase val x = false) pre ->
  entry_matches toLowerCase val m = true ->
  List.find (entry_matches toLowerCase val) (pre ++ m :: post) = Some m.
Proof.
  intros Hpre Hm. induction Hpre as [|x pre Hx _ IH]; simpl.
  - by rewrite Hm.
  - by rewrite Hx.
Qed.

Lemma find_nothing val data :
  Forall (fun x => entry_matches toLowerCase val x = false) data ->
  List.find (entry_matches toLowerCase val) data = None.
Proof. induction 1 as [|x r Hx _ IH]; simpl; [done | by rewrite Hx]. Qed.
End Resolution.

(** C5, as the code has it. The listener is a function of the feed and the
    typed text. With [val] the trimmed, lower-cased text: an empty [val]
    leaves the input as it is; otherwise the input takes the canonical label
    of the first feed entry, in feed order, whose lower-cased label or one of
    whose lower-cased synonyms equals [val] (a label and a synonym count
    alike), and stays as it is when no entry matches. *)
Theorem on_change_first_match (toLowerCase : jsstring -> jsstring)
    (data : list concept) (input_value : jsstring) :
  (typed_term toLowerCase input_value = [] ->
   on_change toLowerCase data input_value = input_value)
  ∧ (typed_term toLowerCase input_value ≠ [] ->
     forall pre m post,
       data = pre ++ m :: post ->
       Forall (fun x => entry_matches toLowerCase
                          (typed_term toLowerCase input_value) x = false) pre ->
       entry_matches toLowerCase (typed_term toLowerCase input_value) m = true ->
       on_change toLowerCase data input_value = label m)
  ∧ (Forall (fun x => entry_matches toLowerCase
                        (typed_term toLowerCase input_value) x = false) data ->
     on_change toLowerCase data input_value = input_value).
Proof.
  unfold on_change. set (val := typed_term toLowerCase input_value). split_and!.
  - by intros ->.
  - intros Hne pre m post -> Hpre Hm.
    destruct val; [done|]. simpl. by rewrite find_first.
  - intros Hnone. rewrite find_nothing by done. by destruct (nonempty val).
Qed.

Lemma on_change_first_match_witness :
  on_change ascii_toLowerCase eggplant_feed (js " EggPlant ") = js "aubergine"
  ∧ on_change ascii_toLowerCase eggplant_feed (js "   ") = js "   "
  ∧ on_change ascii_toLowerCase eggplant_feed (js "okra") = js "okra".
Proof.
  destruct (on_change_first_match ascii_toLowerCase eggplant_feed (js " EggPlant "))
    as (_ & Hfirst & _).
  destruct (on_change_first_match ascii_toLowerCase eggplant_feed (js "   "))
    as (Hempty & _ & _).
  destruct (on_change_first_match ascii_toLowerCase eggplant_feed (js "okra"))
    as (_ & _ & Hnone).
  split_and!.
  - apply (Hfirst ltac:(vm_compute; discriminate) []
             {| label := js "aubergine";
                synonyms := Some [Some (js "eggplant"); None] |}
             [ {| label := js "Eggplant"; synonyms := Some [] |} ]);
      [reflexivity | constructor | reflexivity].
  - apply Hempty. reflexivity.
  - apply Hnone. repeat constructor.
Defined.

(** C5, as stated, fails: a later entry has the typed term as its label, yet
    the input takes the label of an earlier entry matched by a synonym. *)
Lemma synonym_before_label :
  ~ label_match_wins ascii_toLowerCase eggplant_feed (js " EggPlant ").
Proof.
  intros H. destruct H as (y & Hy & Hlab & Hres).
  - vm_compute. discriminate.
  - exists {| label := js "Eggplant"; synonyms := Some [] |}. split.
    + apply list_elem_of_further, list_elem_of_here.
    + reflexivity.
  - unfold eggplant_feed in Hy.
    rewrite !elem_of_cons, elem_of_nil in Hy.
    destruct Hy as [-> | [-> | []]].
    + vm_compute in Hlab. discriminate Hlab.
    + vm_compute in Hres. discriminate Hres.
Qed.

(** ** Typeahead bootstrap *)

Lemma typeahead_options_values (ta : list feed_entry) :
  map opt_value (typeahead_options ta) =
    filter (fun s => Is_true (nonempty s)) (map entry_term (take 1000 ta)).
Proof.
  unfold typeahead_options. generalize (take 1000 ta) as l.
  induction l as [|x r IH]; [done|].
  cbn [map]. rewrite !filter_cons. cbn [snd].
  destruct (decide (Is_true (nonempty (entry_term x)))); cbn [map opt_value];
    by rewrite IH.
Qed.

Lemma typeahead_options_length (ta : list feed_entry) :
  (length (typeahead_options ta) <= 1000)%nat.
Proof.
  rewrite <- (length_map opt_value), typeahead_options_values.
  etrans; [apply length_filter|].
  rewrite length_map, length_take. lia.
Qed.

(** C7, as the code has it. With no ingredient datalist nothing is fetched.
    Otherwise one request goes to [/typeahead], with no method, body or query
    of its own; on a feed, every datalist is replaced by one option for each
    of the first 1000 entries whose [term], or else [q], is a non-empty
    string, in feed order, the option's value being that string; on a failed
    fetch the datalists stay as they were. *)
Theorem initTypeahead_spec (fetch : request -> completion (list feed_entry))
    (datalists : list datalist) :
  (datalists = [] -> initTypeahead fetch datalists = ([], []))
  ∧ (datalists ≠ [] ->
     fst (initTypeahead fetch datalists) =
       [ {| req_url := "/typeahead"; req_method := None; req_body := None;
            req_headers := [("Content-Type", "application/json")] |} ]
     ∧ (forall ta, fetch (fetchJSON_request "/typeahead") = Normal ta ->
          length (snd (initTypeahead fetch datalists)) = length datalists
          ∧ Forall (fun dl =>
                 map opt_value dl =
                   filter (fun s => Is_true (nonempty s))
                     (map entry_term (take 1000 ta))
                 ∧ (length dl <= 1000)%nat)
              (snd (initTypeahead fetch datalists)))
     ∧ (forall e, fetch (fetchJSON_request "/typeahead") = Throw e ->
          snd (initTypeahead fetch datalists) = datalists)).
Proof.
  split; [by intros ->|]. intros Hne.
  destruct datalists as [|d ds]; [done|]. unfold initTypeahead.
  split_and!.
  - by destruct (fetch _).
  - intros ta ->. cbn [snd]. split; [by rewrite length_map|].
    apply Forall_forall. intros dl Hdl.
    change (dl ∈ (fun _ => typeahead_options ta) <$> (d :: ds)) in Hdl.
    apply list_elem_of_fmap in Hdl as (_ & -> & _).
    split; [apply typeahead_options_values | apply typeahead_options_length].
  - by intros e ->.
Qed.

Lemma initTypeahead_spec_witness :
  initTypeahead (fun _ => Normal rice_feed) [] = ([], [])
  ∧ Forall (fun dl => map opt_value dl = [js "rice"; js "dholl"]
                      ∧ (length dl <= 1000)%nat)
      (snd (initTypeahead (fun _ => Normal rice_feed) [[]; []])).
Proof.
  destruct (initTypeahead_spec (fun _ => Normal rice_feed) []) as [Hnone _].
  destruct (initTypeahead_spec (fun _ => Normal rice_feed) [[]; []])
    as [_ Hsome].
  split; [by apply Hnone|].
  destruct Hsome as (_ & Hfeed & _); [done|].
  by destruct (Hfeed rice_feed) as [_ H].
Defined.

(** C7, as stated, fails: an entry without a [term] but with a [q] gets an
    option, whose value is the [q]. *)
Lemma option_from_q :
  let dls := snd (initTypeahead (fun _ => Normal rice_feed) [[]]) in
  dls = [[ {| opt_value := js "rice"; opt_data_id := js "1" |};
           {| opt_value := js "dholl"; opt_data_id := js "2" |} ]]
  ∧ options_by_term rice_feed = [js "dholl"]
  ∧ ~ Forall (fun dl => map opt_value dl = options_by_term rice_feed) dls.
Proof.
  split_and!; [reflexivity | reflexivity |].
  intros H. apply Forall_cons in H as [H _]. vm_compute in H. discriminate H.
Qed.

(** ** HTML escaping *)

Lemma escape_unit_markup_free (c : N) : Forall markup_free (escape_unit c).
Proof.
  unfold escape_unit.
  repeat match goal with
         | |- context [(?a =? ?b)%N] => destruct (N.eqb_spec a b)
         end;
    repeat constructor; done.
Qed.

(** C9. [escapeHtml] returns a string for every primitive, the empty string
    for [null] and [undefined], and no string it returns holds a [<], a [>],
    a double quote or a single quote. *)
Theorem escapeHtml_markup_free (str : primitive) :
  escapeHtml PNull = [] ∧ escapeHtml PUndefined = []
  ∧ Forall markup_free (escapeHtml str).
Proof.
  split_and!; [done | done |].
  unfold escapeHtml. generalize (match str with
                                 | PUndefined | PNull => []
                                 | _ => prim_toString str
                                 end) as s.
  induction s as [|c r IH]; [constructor|].
  cbn [map concat]. apply Forall_app. split; [apply escape_unit_markup_free | done].
Qed.

(** ** Ranking *)




(** Every ingredient is counted once, as have or as missing. *)
Lemma score_recipe_counts (q : ResolvedQuery) (r : Recipe) :
  have_count (score_recipe q r) + missing_count (score_recipe q r)
    = Z.of_nat (length (recipe_ingredients r))
  ∧ 0 <= have_count (score_recipe q r)
  ∧ 0 <= missing_count (score_recipe q r).
Proof.
  simpl. split; [|lia].
  induction (recipe_ingredients r) as [|ing l IH]; simpl; [done|].
  destruct (intersects ing (q_have q)); simpl; lia.
Qed.


(** The ranking at work: the recipe with the allergen is left out, the best
    score comes first, the tie between R001 and R003 goes to the smaller id,
    and a limit of zero counts as 20. *)
Example search_demo :
  map (fun r => (recipe_id (sr_recipe r), score r, have_count r))
    (search (demo_query (Some 2)) demo_index) = [("R004", 1, 1); ("R001", 0, 1)]
  ∧ map (fun r => recipe_id (sr_recipe r)) (search (demo_query (Some 0)) demo_index)
    = ["R004"; "R001"; "R003"].
Proof. split; vm_compute; reflexivity. Qed.

(** * Further properties of the scripts *)

(** ** Favorites across several calls *)

Lemma includes_toggled (id x : Z) (arr : list jsval) :
  (occurrences id arr <= 1)%nat ->
  includes (toggled id arr) x =
    if bool_decide (x = id) then negb (includes arr id) else includes arr x.
Proof.
  intros Hocc. case_bool_decide as Hx.
  - subst x. destruct (includes arr id) eqn:Hi; simpl.
    + apply not_true_is_false. rewrite includes_occurrences.
      rewrite occurrences_toggled, bool_decide_eq_true_2, Hi by done. lia.
    + apply includes_occurrences.
      rewrite occurrences_toggled, bool_decide_eq_true_2, Hi by done. lia.
  - apply includes_ext. rewrite occurrences_toggled.
    by rewrite bool_decide_eq_false_2.
Qed.

Lemma calls_for_cons (x id : Z) (ids : list Z) :
  calls_for x (id :: ids) =
    (if bool_decide (x = id) then S (calls_for x ids) else calls_for x ids).
Proof.
  unfold calls_for. simpl. case_bool_decide as Hx.
  - subst. by rewrite Z.eqb_refl.
  - by destruct (Z.eqb_spec x id).
Qed.

Lemma calls_for_twice (x : Z) (clicks : list Z) :
  Nat.odd (calls_for x (flat_map (fun id => [id; id]) clicks)) = false.
Proof.
  induction clicks as [|id r IH]; [done|].
  cbn [flat_map app]. rewrite !calls_for_cons.
  case_bool_decide; [|done]. by rewrite Nat.odd_succ, <- Nat.negb_odd, Nat.odd_succ,
    <- Nat.negb_odd, negb_involutive.
Qed.

Lemma toggle_all_array (ids : list Z) (ls : storage) (arr : list jsval) :
  getFavorites ls = VArr arr ->
  unrepeated arr ->
  (forall x, isFavorite x (toggle_all ids ls)
             = Normal (xorb (includes arr x) (Nat.odd (calls_for x ids))))
  ∧ (exists arr', getFavorites (toggle_all ids ls) = VArr arr' ∧ unrepeated arr').
Proof.
  revert ls arr. induction ids as [|id r IH]; intros ls arr E Hun.
  - split; [|by exists arr]. intros x. cbn [toggle_all calls_for List.filter length Nat.odd].
    rewrite (isFavorite_array _ _ _ E). by rewrite xorb_false_r.
  - cbn [toggle_all]. rewrite (toggleFavorite_array id ls arr E).
    destruct (IH (setFavorites (toggled id arr) ls) (toggled id arr))
      as [Hfav Harr];
      [apply getFavorites_set | intros y; by apply toggled_distinct |].
    split; [|done]. intros x. rewrite Hfav, calls_for_cons.
    rewrite includes_toggled by apply Hun. f_equal.
    case_bool_decide as Hx; [subst x|done].
    rewrite Nat.odd_succ, <- Nat.negb_odd.
    by destruct (includes arr id), (Nat.odd (calls_for id r)).
Qed.

(** X1. Starting from a stored array without repeated ids, after any run of
    [toggleFavorite] calls an id is a favorite exactly when it was one before
    and the run holds an even number of calls for it, or was none and the run
    holds an odd number; the stored array still has no repeated id. When
    every id of a run is toggled twice in a row, as by a click that two
    listeners see, every id is a favorite exactly when it was one before. *)
Theorem toggle_all_parity (ids : list Z) (ls : storage) (arr : list jsval) :
  getFavorites ls = VArr arr ->
  unrepeated arr ->
  (forall x, isFavorite x (toggle_all ids ls)
             = Normal (xorb (includes arr x) (Nat.odd (calls_for x ids))))
  ∧ (exists arr', getFavorites (toggle_all ids ls) = VArr arr' ∧ unrepeated arr')
  ∧ (forall x, isFavorite x (toggle_all (flat_map (fun id => [id; id]) ids) ls)
               = isFavorite x ls).
Proof.
  intros E Hun. destruct (toggle_all_array ids ls arr E Hun) as [Hfav Harr].
  split_and!; [done | done |]. intros x.
  destruct (toggle_all_array (flat_map (fun id => [id; id]) ids) ls arr E Hun)
    as [-> _].
  rewrite calls_for_twice, xorb_false_r. by rewrite (isFavorite_array _ _ _ E).
Qed.

Lemma toggle_all_parity_witness :
  (forall x, isFavorite x (toggle_all [4; 9; 4; 4] ∅)
             = Normal (xorb false (Nat.odd (calls_for x [4; 9; 4; 4]))))
  ∧ (exists arr', getFavorites (toggle_all [4; 9; 4; 4] ∅) = VArr arr'
                  ∧ unrepeated arr')
  ∧ (forall x, isFavorite x (toggle_all [4; 4; 9; 9; 4; 4; 4; 4] ∅)
               = isFavorite x ∅).
Proof.
  apply (toggle_all_parity [4; 9; 4; 4] ∅ []); [reflexivity|].
  intros x. vm_compute. lia.
Defined.

(** What is stored when [getFavorites] hands out something else than an
    array. *)
Lemma getFavorites_other (ls : storage) (g : jsval) :
  getFavorites ls = g -> is_array g = false ->
  ls !! LS_favorites = Some (Json g) ∧ truthy g = true.
Proof.
  unfold getFavorites, getItem, js_or.
  destruct (ls !! LS_favorites) as [[|v]|]; simpl; try by intros <-.
  destruct (truthy v) eqn:Ht; by intros <-.
Qed.

Lemma getFavorites_truthy (ls : storage) (v : jsval) :
  ls !! LS_favorites = Some (Json v) -> truthy v = true -> getFavorites ls = v.
Proof.
  intros E Ht. unfold getFavorites, getItem, js_or. by rewrite E; simpl; rewrite Ht.
Qed.

(** X2. [toggleFavorite] and [isFavorite] throw exactly when the stored text
    is a truthy JSON value that is no array (for [isFavorite]: and no
    string); on every other storage, also an empty or unreadable one, both
    return. *)
Theorem favorites_throw_iff (id : Z) (ls : storage) :
  ((exists e, toggleFavorite id ls = Throw e)
   <-> exists v, ls !! LS_favorites = Some (Json v)
                 ∧ truthy v = true ∧ is_array v = false)
  ∧ ((exists e, isFavorite id ls = Throw e)
     <-> exists v, ls !! LS_favorites = Some (Json v)
                   ∧ truthy v = true ∧ is_array v = false
                   ∧ forall s, v ≠ VStr s).
Proof.
  split; split.
  - intros [e He]. exists (getFavorites ls).
    assert (Ha : is_array (getFavorites ls) = false).
    { unfold toggleFavorite in He. by destruct (getFavorites ls). }
    destruct (getFavorites_other ls _ eq_refl Ha). done.
  - intros (v & E & Ht & Ha). unfold toggleFavorite.
    rewrite (getFavorites_truthy ls v E Ht).
    destruct v as [p|l|fs]; [by eexists | done | by eexists].
  - intros [e He]. exists (getFavorites ls).
    assert (Ha : is_array (getFavorites ls) = false
                 ∧ forall s, getFavorites ls ≠ VStr s).
    { unfold isFavorite in He.
      destruct (getFavorites ls) as [[| | | |s|]|l|fs]; done. }
    destruct Ha as [Ha Hs].
    destruct (getFavorites_other ls _ eq_refl Ha). done.
  - intros (v & E & Ht & Ha & Hs). unfold isFavorite.
    rewrite (getFavorites_truthy ls v E Ht).
    destruct v as [[| | | |s|]|l|fs]; try done; try by eexists.
    by destruct (Hs s).
Qed.

(** X3. A toggle writes the favorites key only: every other key of the
    storage, and with it the saved last search, is left as it was. *)
Theorem toggleFavorite_frame (id : Z) (ls ls' : storage) (b : bool) :
  toggleFavorite id ls = Normal (b, ls') ->
  (forall k, k ≠ LS_favorites -> ls' !! k = ls !! k)
  ∧ loadLastSearch ls' = loadLastSearch ls.
Proof.
  unfold toggleFavorite. destruct (getFavorites ls); try done.
  intros [= _ <-]. unfold setFavorites, setItem.
  assert (Hk : forall k, k ≠ LS_favorites ->
            <[LS_favorites := Json (VArr (if indexOf elems id =? -1
                                          then elems ++ [VNum id]
                                          else delete (Z.to_nat (indexOf elems id)) elems))]> ls !! k
            = ls !! k).
  { intros k Hk. by rewrite lookup_insert_ne. }
  split; [done|]. unfold loadLastSearch, getItem. by rewrite Hk.
Qed.

Lemma toggleFavorite_frame_witness :
  (forall k, k ≠ LS_favorites ->
     ({[ LS_favorites := Json (VArr [VNum 3]) ]} : storage) !! k
       = (∅ : storage) !! k)
  ∧ loadLastSearch {[ LS_favorites := Json (VArr [VNum 3]) ]} = loadLastSearch ∅.
Proof.
  apply (toggleFavorite_frame 3 ∅ _ true). reflexivity.
Defined.

Lemma jsonify_strings (l : list jsstring) :
  map (fun x => match x with
                | Prim PUndefined => VNull
                | _ => jsonify x
                end) (map (fun s => VStr s) l)
  = map (fun s => VStr s) l.
Proof. by rewrite map_map. Qed.

(** The payload as [JSON.parse] reads it back: itself when its limit is an
    integer, and with [null] for the limit when that is an infinity. *)
Lemma jsonify_payload (toLowerCase : jsstring -> jsstring) (f : form) :
  jsonify (collectSearchPayload toLowerCase f) =
    match collect_limit f with
    | PInf _ =>
        match collectSearchPayload toLowerCase f with
        | VObj fields => VObj (obj_set "limit" VNull fields)
        | v => v
        end
    | _ => collectSearchPayload toLowerCase f
    end.
Proof.
  destruct (collect_limit_number f) as [(n & _ & Hn)|(b & e & _ & _ & Hb)].
  - rewrite Hn. unfold collectSearchPayload. rewrite Hn.
    cbn [jsonify]. by rewrite !jsonify_strings.
  - rewrite Hb. unfold collectSearchPayload. rewrite Hb.
    cbn [jsonify obj_set String.eqb Ascii.eqb Bool.eqb].
    by rewrite !jsonify_strings.
Qed.

(** X4. What the search form saves is what a later page loads, but for an
    infinite limit: after [saveLastSearch] of a collected payload,
    [loadLastSearch] returns that payload when its limit is an integer; when
    the limit is an infinity the loaded payload has [null] for its limit and
    the other fields as collected. The session copy reads the same as the
    local one, and the favorites are untouched. *)
Theorem last_search_round_trip (toLowerCase : jsstring -> jsstring)
    (f : form) (st : stores) :
  (forall n, collect_limit f = PNum n ->
     loadLastSearch
       (st_local (saveLastSearch_stores (collectSearchPayload toLowerCase f) st))
     = collectSearchPayload toLowerCase f)
  ∧ (forall b, collect_limit f = PInf b ->
       exists fields,
         collectSearchPayload toLowerCase f = VObj fields
         ∧ loadLastSearch
             (st_local (saveLastSearch_stores (collectSearchPayload toLowerCase f) st))
           = VObj (obj_set "limit" VNull fields)
         ∧ payload_limit (VObj (obj_set "limit" VNull fields)) = Some VNull)
  ∧ st_session (saveLastSearch_stores (collectSearchPayload toLowerCase f) st)
      !! SS_lastQuery
    = st_local (saveLastSearch_stores (collectSearchPayload toLowerCase f) st)
        !! LS_lastSearch
  ∧ getFavorites
      (st_local (saveLastSearch_stores (collectSearchPayload toLowerCase f) st))
    = getFavorites (st_local st).
Proof.
  pose proof (jsonify_payload toLowerCase f) as Hj.
  assert (Hload : loadLastSearch
            (st_local (saveLastSearch_stores (collectSearchPayload toLowerCase f) st))
          = jsonify (collectSearchPayload toLowerCase f)).
  { unfold saveLastSearch_stores, saveLastSearch, setItem, loadLastSearch, getItem.
    cbn [st_local]. by rewrite lookup_insert_eq. }
  split_and!.
  - intros n Hn. rewrite Hload, Hj. by rewrite Hn.
  - intros b Hb. rewrite Hload, Hj, Hb. by eexists.
  - unfold saveLastSearch_stores, saveLastSearch, setItem. cbn [st_local st_session].
    by rewrite !lookup_insert_eq.
  - unfold saveLastSearch_stores, saveLastSearch, setItem, getFavorites, getItem.
    cbn [st_local]. by rewrite lookup_insert_ne.
Qed.

(** ** Comma lists, further *)

Lemma split_concat (sep : N) (a b : jsstring) :
  split sep (a ++ sep :: b) = split sep a ++ split sep b.
Proof.
  induction a as [|c r IH]; simpl.
  - by rewrite N.eqb_refl.
  - destruct (N.eqb_spec c sep) as [->|_]; [by rewrite IH|].
    rewrite IH. by destruct (split_cons sep r) as (p & ps & ->).
Qed.

(** X5. A comma list is read piece by piece: the terms of two texts joined by
    a comma are the terms of the first followed by the terms of the second.
    In particular a leading, trailing or doubled comma adds no term. *)
Theorem parseCommaList_comma (a b : jsstring) :
  parseCommaList (a ++ comma :: b) = parseCommaList a ++ parseCommaList b.
Proof.
  unfold parseCommaList. by rewrite split_concat, map_app, filter_app.
Qed.

(** X6. The terms of a comma list survive being written back: joined by a
    comma and a space, as the search form is refilled from the saved search,
    they parse to the same list again. *)
Theorem parseCommaList_refill (v : jsstring) :
  parseCommaList (join [comma; space] (parseCommaList v)) = parseCommaList v.
Proof.
  apply parseCommaList_join, Forall_forall. intros t Ht.
  by apply parseCommaList_clean with v.
Qed.

Lemma trimStart_nil_iff (s : jsstring) :
  trimStart s = [] <-> Forall (fun c => is_ws c = true) s.
Proof.
  induction s as [|c r IH]; simpl; [by split; [constructor|]|].
  destruct (is_ws c) eqn:E.
  - rewrite IH. split; [by constructor | by inversion 1].
  - split; [done | inversion 1; congruence].
Qed.

Lemma trim_nil_iff (s : jsstring) :
  trim s = [] <-> Forall (fun c => is_ws c = true) s.
Proof.
  unfold trim, trimEnd. split.
  - intros H. apply trimStart_nil_iff.
    apply (f_equal reverse) in H. rewrite reverse_involutive, reverse_nil in H.
    apply trimStart_nil_iff in H. rewrite Forall_reverse in H.
    pose proof (trimStart_clean s) as Hc.
    destruct (trimStart s) as [|c r]; [done|].
    simpl in Hc. apply Forall_cons in H as [Hw _]. by rewrite Hw in Hc.
  - intros H. apply trimStart_nil_iff in H. by rewrite H.
Qed.

Lemma split_covers (sep c : N) (s : jsstring) :
  c ∈ s -> c = sep ∨ exists p, p ∈ split sep s ∧ c ∈ p.
Proof.
  induction s as [|d r IH]; [by intros ?%elem_of_nil|].
  rewrite elem_of_cons. simpl.
  destruct (N.eqb_spec d sep) as [->|Hne].
  - intros [->|Hc]; [by left|]. destruct (IH Hc) as [?|(p & Hp & ?)]; [by left|].
    right. exists p. split; [by apply list_elem_of_further | done].
  - destruct (split_cons sep r) as (q & qs & E). rewrite E in *.
    intros [->|Hc].
    + right. exists (d :: q). split; apply list_elem_of_here.
    + destruct (IH Hc) as [?|(p & Hp & Hcp)]; [by left|]. right.
      apply elem_of_cons in Hp as [->|Hp].
      * exists (d :: q). split; [apply list_elem_of_here|].
        by apply list_elem_of_further.
      * exists p. split; [by apply list_elem_of_further | done].
Qed.

(** X7. A text yields no term at all exactly when it consists of commas and
    whitespace only (the empty text included). *)
Theorem parseCommaList_nil_iff (v : jsstring) :
  parseCommaList v = [] <-> Forall (fun c => c = comma ∨ is_ws c = true) v.
Proof.
  split.
  - intros H. apply Forall_forall. intros c Hc.
    destruct (split_covers comma c v Hc) as [?|(p & Hp & Hcp)]; [by left|].
    right. destruct (trim p) eqn:Ht.
    + apply trim_nil_iff in Ht. by apply (proj1 (Forall_forall _ _) Ht).
    + assert (Hin : trim p ∈ parseCommaList v).
      { apply parseCommaList_elem. split; [by rewrite Ht | by exists p]. }
      rewrite H in Hin. by apply elem_of_nil in Hin.
  - intros H. apply elem_of_nil_inv. intros t Ht.
    apply parseCommaList_elem in Ht as (Hne & p & -> & Hp).
    apply Hne, trim_nil_iff, Forall_forall. intros c Hc.
    destruct (split_pieces_infix _ _ _ Hp) as (pre & post & ->).
    assert (Hv : c ∈ pre ++ p ++ post) by (rewrite !elem_of_app; auto).
    destruct (proj1 (Forall_forall _ _) H c Hv) as [->|?]; [|done].
    by destruct (split_pieces_free _ _ _ Hp).
Qed.

Lemma set_spread_complete (seen ts : list jsstring) (t : jsstring) :
  t ∈ ts -> t ∉ seen -> t ∈ set_spread seen ts.
Proof.
  revert seen. induction ts as [|x r IH]; simpl; intros seen;
    [by intros ?%elem_of_nil|].
  rewrite elem_of_cons. intros [->|Ht] Hs.
  - destruct (decide (x ∈ seen)); [done | apply list_elem_of_here].
  - destruct (decide (x ∈ seen)); [by apply IH|].
    destruct (decide (t = x)) as [->|Hne]; [apply list_elem_of_here|].
    apply list_elem_of_further, IH; [done|].
    rewrite not_elem_of_cons. by split.
Qed.

(** X8. The chip cleanup loses no term and adds none: the cleaned text has
    exactly the terms of the original text, each once, in the order of their
    first occurrence. *)
Theorem chip_cleanup_terms (v : jsstring) :
  parseCommaList (chip_cleanup v) = unique (parseCommaList v)
  ∧ NoDup (parseCommaList (chip_cleanup v))
  ∧ (forall t, t ∈ parseCommaList (chip_cleanup v) <-> t ∈ parseCommaList v).
Proof.
  assert (E : parseCommaList (chip_cleanup v) = unique (parseCommaList v)).
  { unfold chip_cleanup. apply parseCommaList_join, Forall_forall.
    intros t [Ht _]%set_spread_elem. by apply parseCommaList_clean with v. }
  rewrite E. split_and!; [done | apply set_spread_NoDup |].
  intros t. split.
  - by intros [? _]%set_spread_elem.
  - intros Ht. apply set_spread_complete; [done | apply not_elem_of_nil].
Qed.

(** ** Reading integers *)

Lemma is_digit_not_ws (c : N) : is_digit c = true -> is_ws c = false.
Proof.
  unfold is_digit, is_ws. intros H.
  apply andb_true_iff in H as [H1 H2].
  apply N.leb_le in H1, H2.
  repeat match goal with
         | |- context [(?a <=? ?b)%N] => destruct (N.leb_spec a b)
         | |- context [(?a =? ?b)%N] => destruct (N.eqb_spec a b)
         end; simpl; try done; lia.
Qed.

Lemma digits_value_acc (d : Decimal.uint) (p : positive) :
  digits_value (Z.pos p) (js (NilEmpty.string_of_uint d))
    = Z.pos (Pos.of_uint_acc d p).
Proof.
  revert p. induction d; intros p; [done| ..];
    cbn [NilEmpty.string_of_uint Pos.of_uint_acc];
    change (js (String ?a ?s)) with (N_of_ascii a :: js s);
    cbn [digits_value]; cbv [is_digit N_of_ascii N_of_digits]; simpl;
    rewrite <- IHd; f_equal; lia.
Qed.

Lemma digits_value_uint (d : Decimal.uint) :
  digits_value 0 (js (NilEmpty.string_of_uint d)) = Z.of_N (Pos.of_uint d).
Proof.
  induction d; [done| ..];
    cbn [NilEmpty.string_of_uint Pos.of_uint];
    change (js (String ?a ?s)) with (N_of_ascii a :: js s);
    cbn [digits_value]; cbv [is_digit N_of_ascii N_of_digits]; simpl;
    [done | by rewrite <- digits_value_acc ..].
Qed.

Lemma uint_text_digit (d : Decimal.uint) :
  d ≠ Decimal.Nil ->
  exists c r, js (NilEmpty.string_of_uint d) = c :: r ∧ is_digit c = true.
Proof. destruct d; [done| ..]; intros _; by eexists _, _. Qed.

Lemma read_integer_digits (s : jsstring) (c : N) (r : jsstring) :
  s = c :: r -> is_digit c = true ->
  read_integer s = Some (digits_value 0 s)
  ∧ read_integer (45%N :: s) = Some (- digits_value 0 s).
Proof.
  intros -> Hd. pose proof (is_digit_not_ws c Hd) as Hw.
  assert (c ≠ 45%N ∧ c ≠ 43%N) as [H45 H43].
  { split; intros ->; done. }
  unfold read_integer. cbn [trimStart]. rewrite Hw.
  change (is_ws 45) with false. cbn iota. split.
  - destruct c as [|p]; [done|].
    repeat (destruct p as [p|p|]; try done); rewrite ?Hd; f_equal;
      apply Z.mul_1_l.
  - rewrite Hd. f_equal; try lia.
Qed.

(** Reading all the digits of an integer gives the integer. *)
Lemma read_integer_decimal (n : Z) : read_integer (decimal_text n) = Some n.
Proof.
  unfold decimal_text. destruct n as [|p|p]; [done| |].
  - cbn [Z.to_int DecimalString.NilZero.string_of_int].
    pose proof (DecimalPos.Unsigned.to_uint_nonnil p) as Hnn.
    assert (E : NilZero.string_of_uint (Pos.to_uint p)
                = NilEmpty.string_of_uint (Pos.to_uint p))
      by (by destruct (Pos.to_uint p)).
    rewrite E. destruct (uint_text_digit _ Hnn) as (c & r & Hs & Hd).
    destruct (read_integer_digits _ c r Hs Hd) as [-> _].
    by rewrite digits_value_uint, DecimalPos.Unsigned.of_to.
  - cbn [Z.to_int DecimalString.NilZero.string_of_int].
    pose proof (DecimalPos.Unsigned.to_uint_nonnil p) as Hnn.
    assert (E : NilZero.string_of_uint (Pos.to_uint p)
                = NilEmpty.string_of_uint (Pos.to_uint p))
      by (by destruct (Pos.to_uint p)).
    rewrite E. destruct (uint_text_digit _ Hnn) as (c & r & Hs & Hd).
    change (js (String "-" ?s)) with (45%N :: js s).
    destruct (read_integer_digits _ c r Hs Hd) as [_ ->].
    by rewrite digits_value_uint, DecimalPos.Unsigned.of_to.
Qed.

Lemma decimal_text_opp (v : Z) :
  0 < v -> decimal_text (- v) = 45%N :: decimal_text v.
Proof. by destruct v. Qed.

Lemma read_integer_strip_sign (s : jsstring) :
  read_integer s =
    match snd (strip_sign (trimStart s)) with
    | c :: _ =>
        if is_digit c
        then Some (fst (strip_sign (trimStart s))
                   * digits_value 0 (snd (strip_sign (trimStart s))))
        else None
    | [] => None
    end.
Proof.
  unfold read_integer, strip_sign. destruct (trimStart s) as [|c r]; [done|].
  destruct (N.eqb_spec c 45) as [->|H45]; [done|].
  destruct (N.eqb_spec c 43) as [->|H43]; [done|].
  destruct c as [|p]; [done|].
  repeat (destruct p as [p|p|]; try done).
Qed.

Lemma trimStart_app_ws (w s : jsstring) :
  Forall (fun c => is_ws c = true) w -> trimStart (w ++ s) = trimStart s.
Proof. induction 1 as [|c r Hc _ IH]; simpl; [done | by rewrite Hc]. Qed.

Lemma trimStart_app (s t : jsstring) :
  trimStart s ≠ [] -> trimStart (s ++ t) = trimStart s ++ t.
Proof.
  induction s as [|c r IH]; simpl; [done|]. by destruct (is_ws c).
Qed.

Lemma digits_value_app (acc : Z) (s : jsstring) (c : N) (rest : jsstring) :
  is_digit c = false -> digits_value acc (s ++ c :: rest) = digits_value acc s.
Proof.
  intros Hc. revert acc. induction s as [|d r IH]; intros acc; simpl.
  - by rewrite Hc.
  - by destruct (is_digit d).
Qed.

Lemma read_integer_leading (w s rest : jsstring) (c : N) (z : Z) :
  Forall (fun c => is_ws c = true) w ->
  read_integer s = Some z ->
  is_digit c = false ->
  read_integer (w ++ s) = Some z ∧ read_integer (w ++ s ++ c :: rest) = Some z.
Proof.
  intros Hw Hs Hc.
  rewrite !read_integer_strip_sign, !trimStart_app_ws by done.
  rewrite read_integer_strip_sign in Hs. split; [done|].
  destruct (trimStart s) as [|x r] eqn:Ex; [done|].
  rewrite trimStart_app by (by rewrite Ex). rewrite Ex.
  unfold strip_sign in *. cbn [app].
  destruct (x =? 45)%N; [|destruct (x =? 43)%N]; cbn [fst snd] in *.
  - destruct r as [|y r']; [done|]. cbn [app].
    destruct (is_digit y); [|done].
    pose proof (digits_value_app 0 (y :: r') c rest Hc) as Hd.
    cbn [app] in Hd. by rewrite Hd.
  - destruct r as [|y r']; [done|]. cbn [app].
    destruct (is_digit y); [|done].
    pose proof (digits_value_app 0 (y :: r') c rest Hc) as Hd.
    cbn [app] in Hd. by rewrite Hd.
  - destruct (is_digit x); [|done].
    pose proof (digits_value_app 0 (x :: r) c rest Hc) as Hd.
    cbn [app] in Hd. by rewrite Hd.
Qed.

(** X10. [parseInt] reads the leading integer of a text: whitespace in front
    is skipped, and once a text reads as [n], whatever follows it after a
    non-digit is ignored. A limit typed as [12abc] or [3.7] is sent as 12
    or 3. *)
Theorem parseInt10_leading (w s rest : jsstring) (c : N) (n : primitive) :
  Forall (fun c => is_ws c = true) w ->
  parseInt10 s = Some n ->
  is_digit c = false ->
  parseInt10 (w ++ s) = Some n ∧ parseInt10 (w ++ s ++ c :: rest) = Some n.
Proof.
  unfold parseInt10. intros Hw Hs Hc.
  destruct (read_integer s) as [z|] eqn:Ez; [|done].
  destruct (read_integer_leading w s rest c z Hw Ez Hc) as [-> ->]. done.
Qed.

Lemma parseInt10_leading_witness :
  parseInt10 (js "  " ++ js "-12") = Some (PNum (-12))
  ∧ parseInt10 (js "  " ++ js "-12" ++ 46%N :: js "5 kg") = Some (PNum (-12)).
Proof.
  apply (parseInt10_leading (js "  ") (js "-12") (js "5 kg") 46%N (PNum (-12)));
    [repeat constructor | reflexivity | reflexivity].
Defined.

(** ** Doubles *)

Lemma round_double_small z : Z.abs z < 2 ^ 53 -> round_double z = PNum z.
Proof.
  intros H. unfold round_double. by destruct (Z.ltb_spec (Z.abs z) (2 ^ 53)); [|lia].
Qed.

Section Rounding.
Variables (a e q : Z).
Hypothesis Ha : 2 ^ 53 <= a.
Hypothesis He : e = Z.log2 a - 52.
Hypothesis Hq : q = a / 2 ^ e.

Lemma rd_e_pos : 1 <= e.
Proof.
  assert (53 <= Z.log2 a); [|lia].
  apply Z.log2_le_pow2; lia.
Qed.

Lemma rd_pow_pos : 0 < 2 ^ e.
Proof. apply Z.pow_pos_nonneg; [lia | pose proof rd_e_pos; lia]. Qed.

Lemma rd_bounds : 2 ^ 52 * 2 ^ e <= a < 2 ^ 53 * 2 ^ e.
Proof.
  pose proof rd_e_pos as H1.
  assert (0 < a) by lia.
  pose proof (Z.log2_spec a H) as [Hlo Hhi].
  rewrite <- !Z.pow_add_r by lia.
  replace (52 + e) with (Z.log2 a) by lia.
  replace (53 + e) with (Z.succ (Z.log2 a)) by lia. done.
Qed.

Lemma rd_q : 2 ^ 52 <= q < 2 ^ 53.
Proof.
  pose proof rd_bounds as [Hlo Hhi]. pose proof rd_pow_pos as Hp. subst q. split.
  - apply Z.div_le_lower_bound; lia.
  - apply Z.div_lt_upper_bound; lia.
Qed.
End Rounding.

Lemma round_double_mult (s q' e : Z) :
  (s = 1 ∨ s = -1) -> 1 <= e -> 2 ^ 52 <= q' <= 2 ^ 53 -> q' * 2 ^ e < 2 ^ 1024 ->
  round_double (s * (q' * 2 ^ e)) = PNum (s * (q' * 2 ^ e)).
Proof.
  intros Hs He Hq Hm.
  assert (Hp : 0 < 2 ^ e) by (apply Z.pow_pos_nonneg; lia).
  set (m := q' * 2 ^ e) in *.
  assert (Hm53 : 2 ^ 53 <= m).
  { unfold m. replace e with (1 + (e - 1)) by lia.
    rewrite Z.pow_add_r by lia.
    assert (0 < 2 ^ (e - 1)) by (apply Z.pow_pos_nonneg; lia). nia. }
  assert (Habs : Z.abs (s * m) = m) by (destruct Hs as [-> | ->]; lia).
  assert (Hsgn : Z.sgn (s * m) = s) by (destruct Hs as [-> | ->]; lia).
  unfold round_double. rewrite Habs.
  destruct (Z.ltb_spec m (2 ^ 53)); [lia|].
  destruct (Z.eq_dec q' (2 ^ 53)) as [Eq|Hne].
  - assert (Hlog : Z.log2 m = 53 + e).
    { apply Z.log2_unique; [lia|]. unfold m. rewrite Eq.
      rewrite <- Z.pow_add_r by lia.
      replace (53 + e + 1) with (Z.succ (53 + e)) by lia.
      rewrite Z.pow_succ_r by lia. lia. }
    rewrite Hlog. replace (53 + e - 52) with (e + 1) by lia.
    replace (e + 1 - 1) with e by lia.
    assert (Em : m = 2 ^ 52 * 2 ^ (e + 1)).
    { unfold m. rewrite Eq, (Z.pow_add_r 2 e 1) by lia. lia. }
    assert (Hp1 : 0 < 2 ^ (e + 1)) by (apply Z.pow_pos_nonneg; lia).
    assert (Hd : m / 2 ^ (e + 1) = 2 ^ 52) by (rewrite Em; apply Z.div_mul; lia).
    assert (Hr : m mod 2 ^ (e + 1) = 0) by (rewrite Em; apply Z.mod_mul; lia).
    rewrite Hd, Hr.
    destruct (Z.ltb_spec (2 ^ e) 0); [lia|].
    destruct (Z.eqb_spec 0 (2 ^ e)); [lia|]. cbn [orb andb].
    rewrite <- Em. destruct (Z.leb_spec (2 ^ 1024) m); [lia|].
    by rewrite Hsgn.
  - assert (Hlog : Z.log2 m = 52 + e).
    { apply Z.log2_unique; [lia|]. unfold m.
      rewrite Z.pow_succ_r, Z.pow_add_r by lia.
      assert (q' * 2 ^ e < 2 ^ 53 * 2 ^ e) by (apply Z.mul_lt_mono_pos_r; lia).
      assert (2 ^ 52 * 2 ^ e <= q' * 2 ^ e) by (apply Z.mul_le_mono_nonneg_r; lia).
      lia. }
    rewrite Hlog. replace (52 + e - 52) with e by lia.
    assert (Hd : m / 2 ^ e = q') by (apply Z.div_mul; lia).
    assert (Hr : m mod 2 ^ e = 0) by (apply Z.mod_mul; lia).
    rewrite Hd, Hr.
    assert (Hh : 0 < 2 ^ (e - 1)) by (apply Z.pow_pos_nonneg; lia).
    destruct (Z.ltb_spec (2 ^ (e - 1)) 0); [lia|].
    destruct (Z.eqb_spec 0 (2 ^ (e - 1))); [lia|]. cbn [orb andb].
    fold m. destruct (Z.leb_spec (2 ^ 1024) m); [lia|].
    by rewrite Hsgn.
Qed.

(** What [round_double] returns is a double. *)
Lemma round_double_fixed (z y : Z) :
  round_double z = PNum y -> round_double y = PNum y.
Proof.
  destruct (Z.lt_ge_cases (Z.abs z) (2 ^ 53)) as [Hs|Hb].
  - rewrite (round_double_small z Hs). intros [= <-]. by apply round_double_small.
  - unfold round_double. destruct (Z.ltb_spec (Z.abs z) (2 ^ 53)); [lia|].
    set (e := Z.log2 (Z.abs z) - 52).
    set (q := Z.abs z / 2 ^ e).
    set (r := Z.abs z mod 2 ^ e).
    match goal with
    | |- context [if ?c then q + 1 else q] => set (q' := if c then q + 1 else q)
    end.
    destruct (Z.leb_spec (2 ^ 1024) (q' * 2 ^ e)) as [|Hm]; [done|].
    intros [= <-].
    pose proof (rd_e_pos (Z.abs z) e Hb eq_refl) as He.
    pose proof (rd_q (Z.abs z) e q Hb eq_refl eq_refl) as Hq.
    apply round_double_mult; [lia | done | | done].
    unfold q'. match goal with |- context [if ?c then _ else _] => destruct c end; lia.
Qed.

Lemma round_double_opp (z : Z) : round_double (- z) = neg_prim (round_double z).
Proof.
  unfold round_double. rewrite Z.abs_opp.
  destruct (Z.ltb_spec (Z.abs z) (2 ^ 53)); [done|].
  cbv zeta.
  match goal with |- context [(2 ^ 1024 <=? ?m)] => destruct (Z.leb_spec (2 ^ 1024) m) end;
    simpl.
  - f_equal. destruct (Z.ltb_spec (- z) 0), (Z.ltb_spec z 0); try done; lia.
  - f_equal. rewrite Z.sgn_opp. lia.
Qed.

Lemma rounds_to_spec x v : rounds_to x v = true <-> round_double v = PNum x.
Proof.
  unfold rounds_to. destruct (round_double v); try done.
  rewrite Z.eqb_eq. split; congruence.
Qed.

(** The digits that [shortest_from] settles on denote a number that rounds
    to [x]. *)
Lemma shortest_from_rounds (m : nat) (x : Z) :
  round_double x = PNum x -> round_double (shortest_from m x) = PNum x.
Proof.
  intros Hx. induction m as [|m IH]; cbn [shortest_from]; cbv zeta;
    repeat match goal with
           | |- context [rounds_to x ?v] =>
               let E := fresh "E" in destruct (rounds_to x v) eqn:E;
               [apply rounds_to_spec in E|]
           end; cbn [andb];
    try match goal with |- context [if ?c then _ else _] => destruct c end;
    done.
Qed.

Lemma level_bounds (m : nat) (x : Z) :
  (m <= 20)%nat -> 0 < x < 10 ^ 21 ->
  0 <= x / 10 ^ Z.of_nat m * 10 ^ Z.of_nat m <= x
  ∧ 0 < x / 10 ^ Z.of_nat m * 10 ^ Z.of_nat m + 10 ^ Z.of_nat m <= 10 ^ 21.
Proof.
  intros Hm Hx. set (p := 10 ^ Z.of_nat m).
  assert (Hp : 0 < p) by (apply Z.pow_pos_nonneg; lia).
  set (k := 10 ^ (21 - Z.of_nat m)).
  assert (Hk : 10 ^ 21 = k * p).
  { unfold k, p. rewrite <- Z.pow_add_r by lia. f_equal. lia. }
  assert (Hd : 0 <= x / p < k).
  { split; [apply Z.div_pos; lia | apply Z.div_lt_upper_bound; lia]. }
  pose proof (Z.mul_div_le x p Hp) as Hle.
  split; [nia|]. rewrite Hk. nia.
Qed.

Lemma shortest_from_bound (m : nat) (x : Z) :
  (m <= 20)%nat -> 0 < x < 10 ^ 21 ->
  0 < shortest_from m x < 10 ^ 21.
Proof.
  intros Hm Hx.
  assert (H21 : round_double (10 ^ 21) = PNum (10 ^ 21)) by (by vm_compute).
  assert (H0 : round_double 0 = PNum 0) by done.
  induction m as [|m IH]; cbn [shortest_from]; cbv zeta.
  - pose proof (level_bounds 0 x Hm Hx) as [Hlo Hhi].
    set (lo := x / 10 ^ Z.of_nat 0 * 10 ^ Z.of_nat 0) in *.
    destruct (rounds_to x lo) eqn:Elo; [apply rounds_to_spec in Elo|];
      (destruct (rounds_to x (lo + 10 ^ Z.of_nat 0)) eqn:Ehi;
       [apply rounds_to_spec in Ehi|]); cbn [andb];
      try match goal with |- context [if ?c then _ else _] => destruct c end;
      try lia.
    all: try (assert (lo ≠ 0) by (intros E0; rewrite E0, H0 in Elo; injection Elo; lia)).
    all: try (assert (lo + 10 ^ Z.of_nat 0 ≠ 10 ^ 21)
                by (intros E1; rewrite E1, H21 in Ehi; injection Ehi; lia)).
    all: lia.
  - pose proof (level_bounds (S m) x Hm Hx) as [Hlo Hhi].
    set (lo := x / 10 ^ Z.of_nat (S m) * 10 ^ Z.of_nat (S m)) in *.
    destruct (rounds_to x lo) eqn:Elo; [apply rounds_to_spec in Elo|];
      (destruct (rounds_to x (lo + 10 ^ Z.of_nat (S m))) eqn:Ehi;
       [apply rounds_to_spec in Ehi|]); cbn [andb];
      try match goal with |- context [if ?c then _ else _] => destruct c end;
      try (apply IH; lia).
    all: try (assert (lo ≠ 0) by (intros E0; rewrite E0, H0 in Elo; injection Elo; lia)).
    all: try (assert (lo + 10 ^ Z.of_nat (S m) ≠ 10 ^ 21)
                by (intros E1; rewrite E1, H21 in Ehi; injection Ehi; lia)).
    all: lia.
Qed.

Lemma parseInt10_printed (n : Z) :
  round_double n = PNum n -> Z.abs n < 10 ^ 21 ->
  parseInt10 (number_toString n) = Some (PNum n).
Proof.
  intros Hd Hn. unfold number_toString.
  destruct (Z.eqb_spec n 0) as [->|Hnz]; [done|].
  assert (Hx : 0 < Z.abs n < 10 ^ 21) by lia.
  assert (Hdx : round_double (Z.abs n) = PNum (Z.abs n)).
  { destruct (Z.abs_spec n) as [[_ ->]|[_ ->]]; [done|].
    by rewrite round_double_opp, Hd. }
  unfold start_level. destruct (Z.ltb_spec (Z.abs n) (10 ^ 21)); [|lia].
  pose proof (shortest_from_bound 20 (Z.abs n) (le_n _) Hx) as Hv.
  pose proof (shortest_from_rounds 20 (Z.abs n) Hdx) as Hr.
  set (v := shortest_from 20 (Z.abs n)) in *.
  destruct (Z.ltb_spec v (10 ^ 21)); [|lia].
  unfold parseInt10. destruct (Z.ltb_spec n 0).
  - cbn [app]. rewrite <- decimal_text_opp by lia.
    rewrite read_integer_decimal. cbn [fmap option_fmap option_map].
    rewrite round_double_opp, Hr. simpl. do 2 f_equal. lia.
  - cbn [app]. rewrite read_integer_decimal. cbn [fmap option_fmap option_map].
    rewrite Hr. do 2 f_equal. lia.
Qed.

(** X9. Reading back a printed Number gives the Number: for the double of an
    integer [n] below [10^21] in size, [parseInt] of [String(n)] is [n]. So
    the recipe index that a card carries in its [data-recipe-id] is the id
    its heart button toggles. (From [10^21] on the text is in exponent form
    and [parseInt] stops at its point or its [e].) *)
Theorem parseInt10_number_toString (n : Z) :
  round_double n = PNum n -> Z.abs n < 10 ^ 21 ->
  parseInt10 (number_toString n) = Some (PNum n).
Proof. apply parseInt10_printed. Qed.

Lemma parseInt10_number_toString_witness :
  parseInt10 (number_toString (2 ^ 63)) = Some (PNum (2 ^ 63)).
Proof.
  apply (parseInt10_number_toString (2 ^ 63)); [by vm_compute | by vm_compute].
Defined.

(** The limit of a payload, when an integer, is a double other than zero. *)
Lemma collect_limit_double (f : form) (n : Z) :
  collect_limit f = PNum n -> round_double n = PNum n ∧ n ≠ 0.
Proof.
  rewrite collect_limit_cases. destruct (limit_el f) as [e|]; [|by intros [= <-]].
  unfold parseInt10. destruct (read_integer (value e)) as [z|];
    [|by intros [= <-]]. cbn [fmap option_fmap option_map].
  destruct (truthy_prim (round_double z)) eqn:Ht; [|by intros [= <-]].
  intros Hz. split; [by apply round_double_fixed with z|].
  intros ->. by rewrite Hz in Ht.
Qed.

(** X11. An integer limit of a payload is never zero, and below [10^21] it
    survives the refill of the form: when the limit field is set to the
    printed limit of a saved payload, collecting again gives that limit. *)
Theorem collect_limit_refill (saved f : form) (e : element) (n : Z) :
  collect_limit saved = PNum n ->
  Z.abs n < 10 ^ 21 ->
  limit_el f = Some e ->
  value e = number_toString n ->
  n ≠ 0 ∧ collect_limit f = PNum n.
Proof.
  intros Hs Hn He Hv. destruct (collect_limit_double saved n Hs) as [Hd Hnz].
  split; [done|].
  rewrite (collect_limit_cases f), He, Hv, parseInt10_printed by done.
  simpl. by destruct (Z.eqb_spec n 0).
Qed.

Lemma collect_limit_refill_witness :
  35 ≠ 0 ∧ collect_limit (limit_form "35") = PNum 35.
Proof.
  apply (collect_limit_refill (limit_form "35 recipes") (limit_form "35")
           {| value := js "35"; checked := false |} 35);
    [by vm_compute | by vm_compute | reflexivity | by vm_compute].
Defined.

(** ** HTML escaping, further *)

Lemma escape_unit_plain (c : N) : plain_unit c = true -> escape_unit c = [c].
Proof.
  unfold plain_unit, escape_unit. intros H. apply negb_true_iff in H.
  repeat (apply orb_false_iff in H as [H ?]).
  by repeat match goal with E : (_ =? _)%N = false |- _ => rewrite E; clear E end.
Qed.

Lemma escape_unit_special (c : N) :
  plain_unit c = false ->
  exists r, escape_unit c = 38%N :: r ∧ (3 <= length r)%nat.
Proof.
  unfold plain_unit, escape_unit. intros H. apply negb_false_iff in H.
  repeat match goal with
         | |- context [(?a =? ?b)%N] => destruct (N.eqb_spec a b)
         end; try done; eexists; (split; [reflexivity | simpl; lia]).
Qed.

Lemma escapeHtml_str (s : jsstring) :
  escapeHtml (PStr s) = concat (map escape_unit s).
Proof. reflexivity. Qed.

Lemma escapeHtml_cons (c : N) (s : jsstring) :
  escapeHtml (PStr (c :: s)) = escape_unit c ++ escapeHtml (PStr s).
Proof. reflexivity. Qed.

Lemma escapeHtml_length (s : jsstring) :
  (length s <= length (escapeHtml (PStr s)))%nat.
Proof.
  induction s as [|c r IH]; [done|].
  rewrite escapeHtml_cons, length_app. simpl.
  destruct (plain_unit c) eqn:E.
  - rewrite (escape_unit_plain c E). simpl. lia.
  - destruct (escape_unit_special c E) as (t & -> & ?). simpl. lia.
Qed.

Lemma escapeHtml_fixed (s : jsstring) :
  escapeHtml (PStr s) = s <-> Forall (fun c => plain_unit c = true) s.
Proof.
  induction s as [|c r IH]; [by split; [constructor|]|].
  rewrite escapeHtml_cons. split.
  - intros H. destruct (plain_unit c) eqn:E.
    + rewrite (escape_unit_plain c E) in H. injection H as H.
      constructor; [done | by apply IH].
    + destruct (escape_unit_special c E) as (t & Ht & Hlen).
      rewrite Ht in H. injection H as Hc H.
      pose proof (escapeHtml_length r) as Hr.
      apply (f_equal length) in H. rewrite length_app in H. lia.
  - intros H. apply Forall_cons in H as [Hc Hr].
    rewrite (escape_unit_plain c Hc). simpl. f_equal. by apply IH.
Qed.

Lemma escaped_plain (s : jsstring) :
  Forall (fun c => plain_unit c = true) (escapeHtml (PStr s)) ->
  Forall (fun c => plain_unit c = true) s.
Proof.
  induction s as [|c r IH]; [constructor|].
  rewrite escapeHtml_cons, Forall_app. intros [Hc Hr].
  constructor; [|by apply IH].
  destruct (plain_unit c) eqn:E; [done|].
  destruct (escape_unit_special c E) as (t & Ht & _).
  rewrite Ht in Hc. by apply Forall_cons in Hc as [Hc _].
Qed.

(** X12. [escapeHtml] returns a string unchanged exactly when the string
    holds none of the five characters it replaces; and escaping an escaped
    text once more changes it again, unless the first pass had nothing to
    replace. *)
Theorem escapeHtml_fixed_iff (s : jsstring) :
  (escapeHtml (PStr s) = s <-> Forall (fun c => plain_unit c = true) s)
  ∧ (escapeHtml (PStr (escapeHtml (PStr s))) = escapeHtml (PStr s)
     <-> Forall (fun c => plain_unit c = true) s).
Proof.
  split; [apply escapeHtml_fixed|].
  rewrite escapeHtml_fixed. split; [apply escaped_plain|].
  intros H. by rewrite (proj2 (escapeHtml_fixed s) H).
Qed.

(** X13. Escaping loses nothing: two strings with the same escaped text are
    the same string. *)
Theorem escapeHtml_injective (s1 s2 : jsstring) :
  escapeHtml (PStr s1) = escapeHtml (PStr s2) -> s1 = s2.
Proof.
  revert s2. induction s1 as [|c1 r1 IH]; intros [|c2 r2].
  - done.
  - rewrite escapeHtml_cons. unfold escape_unit.
    repeat match goal with
           | |- context [(?a =? ?b)%N] => destruct (N.eqb_spec a b)
           end; discriminate.
  - rewrite escapeHtml_cons. unfold escape_unit.
    repeat match goal with
           | |- context [(?a =? ?b)%N] => destruct (N.eqb_spec a b)
           end; discriminate.
  - rewrite !escapeHtml_cons. unfold escape_unit.
    repeat match goal with
           | |- context [(?a =? ?b)%N] => destruct (N.eqb_spec a b)
           end;
      simpl; intros H; try discriminate H; simplify_eq; try done;
      f_equal; by apply IH.
Qed.

Lemma escapeHtml_injective_witness : js "a<b" = [97; 60; 98]%N.
Proof.
  apply (escapeHtml_injective (js "a<b") [97; 60; 98]%N). reflexivity.
Defined.

(** ** The ingredient list of a card *)

Lemma count_unit_app (c : N) (s t : jsstring) :
  count_unit c (s ++ t) = (count_unit c s + count_unit c t)%nat.
Proof. apply count_occ_app. Qed.

Lemma count_unit_markup_free (c : N) (s : jsstring) :
  Forall markup_free s -> c ∈ [60; 62; 34; 39]%N -> count_unit c s = 0%nat.
Proof.
  intros Hs Hc. unfold count_unit. apply count_occ_not_In.
  intros Hin%list_elem_of_In.
  apply (proj1 (Forall_forall _ _) Hs) in Hin as (? & ? & ? & ?).
  rewrite !elem_of_cons, elem_of_nil in Hc.
  destruct Hc as [->|[->|[->|[->|[]]]]]; done.
Qed.

Lemma escaped_markup_free (s : jsstring) :
  Forall markup_free (concat (map escape_unit s)).
Proof.
  induction s as [|c r IH]; [constructor|].
  cbn [map concat]. apply Forall_app. split; [apply escape_unit_markup_free | done].
Qed.

Lemma count_unit_escapeHtml (c : N) (p : primitive) :
  c ∈ [60; 62; 34; 39]%N -> count_unit c (escapeHtml p) = 0%nat.
Proof. apply count_unit_markup_free, escaped_markup_free. Qed.

(** The markup of one item: a pair of angle brackets for each of [<li>] and
    [</li>], and with a quantity two more pairs and the two double quotes of
    the [span]. *)
Lemma ingredient_item_markup (ing : ingredient) :
  let q := if truthy_prim (ing_qty ing) then 1%nat else 0%nat in
  count_unit 60 (ingredient_item ing) = (2 + 2 * q)%nat
  ∧ count_unit 62 (ingredient_item ing) = (2 + 2 * q)%nat
  ∧ count_unit 34 (ingredient_item ing) = (2 * q)%nat
  ∧ count_unit 39 (ingredient_item ing) = 0%nat.
Proof.
  unfold ingredient_item.
  destruct (truthy_prim (ing_qty ing)); cbn zeta;
    rewrite !count_unit_app,
      !(count_unit_escapeHtml 60), !(count_unit_escapeHtml 62),
      !(count_unit_escapeHtml 34), !(count_unit_escapeHtml 39)
      by repeat constructor;
    split_and!; reflexivity.
Qed.

(** X14. Whatever the labels, ids and quantities of the ingredients hold, the
    markup of [ingList] is that of the template alone: at most five items,
    an opening and a closing tag for each, one [span] for each shown quantity,
    its two double quotes the only ones, and no single quote. Text from the
    response cannot add a tag or close an attribute. *)
Theorem ingList_markup (ingredients_adapted : option (list ingredient)) :
  let shown := take 5 (default [] ingredients_adapted) in
  (length shown <= 5)%nat
  ∧ count_unit 60 (ingList ingredients_adapted)
      = (2 * length shown + 2 * with_qty shown)%nat
  ∧ count_unit 62 (ingList ingredients_adapted)
      = (2 * length shown + 2 * with_qty shown)%nat
  ∧ count_unit 34 (ingList ingredients_adapted) = (2 * with_qty shown)%nat
  ∧ count_unit 39 (ingList ingredients_adapted) = 0%nat.
Proof.
  intros shown. split; [unfold shown; rewrite length_take; lia|].
  unfold ingList. fold shown. generalize shown as l. clear.
  induction l as [|ing l (H60 & H62 & H34 & H39)]; [done|].
  cbn [map concat]. rewrite !count_unit_app, H60, H62, H34, H39.
  destruct (ingredient_item_markup ing) as (-> & -> & -> & ->).
  unfold with_qty. cbn [List.filter length].
  destruct (truthy_prim (ing_qty ing)); cbn [length]; split_and!; lia.
Qed.

(** ** [fetchJSON] *)

Lemma obj_get_set (k k' : string) (v : jsval) (o : object) :
  obj_get k (obj_set k' v o) = if String.eqb k' k then Some v else obj_get k o.
Proof.
  induction o as [|[k0 v0] r IH]; simpl; [done|].
  destruct (String.eqb_spec k0 k') as [->|Hne]; simpl.
  - by destruct (String.eqb k' k).
  - destruct (String.eqb_spec k0 k) as [->|]; [|done].
    by destruct (String.eqb_spec k' k) as [->|].
Qed.

Lemma obj_get_spread_absent (k : string) (target src : object) :
  obj_get k src = None -> obj_get k (spread target src) = obj_get k target.
Proof.
  unfold spread. revert target.
  induction src as [|[k0 v0] r IH]; intros target; simpl; [done|].
  destruct (String.eqb_spec k0 k) as [->|Hne]; [done|].
  intros Hr. rewrite IH, obj_get_set by done.
  by destruct (String.eqb_spec k0 k).
Qed.

Lemma obj_get_spread_present (k : string) (v : jsval) (target src : object) :
  NoDup (map fst src) -> obj_get k src = Some v ->
  obj_get k (spread target src) = Some v.
Proof.
  unfold spread. revert target.
  induction src as [|[k0 v0] r IH]; intros target; simpl; [done|].
  intros [Hk0 Hnd]%NoDup_cons.
  destruct (String.eqb_spec k0 k) as [->|Hne].
  - intros [= ->].
    assert (Hr : obj_get k r = None).
    { clear -Hk0. induction r as [|[k1 v1] r IH]; simpl; [done|].
      simpl in Hk0. rewrite not_elem_of_cons in Hk0. destruct Hk0 as [? ?].
      destruct (String.eqb_spec k1 k); [congruence | by apply IH]. }
    pose proof (obj_get_spread_absent k (obj_set k v target) r Hr) as H.
    unfold spread in H. rewrite H, obj_get_set. by rewrite String.eqb_refl.
  - by apply IH.
Qed.

(** X15. The options of [fetchJSON] reach [fetch] as given, and the JSON
    content type is only a default for a call without [headers]: when the
    options own a [headers] property, that value is sent as the headers, the
    content type is not merged into it. *)
Theorem fetchJSON_init_headers (opts : object) :
  NoDup (map fst opts) ->
  (forall k, k ≠ "headers" ->
     obj_get k (fetchJSON_init opts) = obj_get k opts)
  ∧ (forall h, obj_get "headers" opts = Some h ->
       obj_get "headers" (fetchJSON_init opts) = Some h)
  ∧ (obj_get "headers" opts = None ->
       obj_get "headers" (fetchJSON_init opts)
         = Some (VObj [("Content-Type", VStr (js "application/json"))])).
Proof.
  intros Hnd. unfold fetchJSON_init. split_and!.
  - intros k Hk. destruct (obj_get k opts) as [v|] eqn:E.
    + by apply obj_get_spread_present.
    + rewrite obj_get_spread_absent by done. cbn [obj_get].
      by destruct (String.eqb_spec "headers" k).
  - intros h Hh. by apply obj_get_spread_present.
  - intros Hh. rewrite obj_get_spread_absent by done.
    unfold prop. by rewrite Hh.
Qed.

Lemma fetchJSON_init_headers_witness :
  obj_get "method" (fetchJSON_init post_search_opts) = Some (VStr (js "POST"))
  ∧ obj_get "headers" (fetchJSON_init post_search_opts)
      = Some (VObj [("Content-Type", VStr (js "application/json"))]).
Proof.
  destruct (fetchJSON_init_headers post_search_opts) as (Hk & _ & Hnone).
  - apply (bool_decide_unpack _). by vm_compute.
  - split; [by rewrite Hk | by apply Hnone].
Defined.

(** X16. [fetchJSON] fulfils exactly when the response has a status from 200
    to 299 and a JSON body, and then with the parsed body. With any other
    status it rejects: with an [Error] that carries the status and has for
    its message the status line, when the body is no JSON or holds no truthy
    [error], and else with what [new Error] makes of that [error]: an
    [Error] with the status and the error as a string for its message (a
    string itself, and the empty string for an empty array), or the
    [TypeError] of an [error] that cannot be made a string. *)
Theorem fetchJSON_settle_spec (net : completion response) :
  (forall v, fetchJSON_settle net = Fulfilled v
     <-> exists res, net = Normal res ∧ 200 <= res_status res <= 299
                     ∧ res_body res = Json v)
  ∧ (forall res, net = Normal res -> ~ (200 <= res_status res <= 299) ->
       (res_body res = NotJson
        ∨ (exists data, res_body res = Json data
                        ∧ truthy (body_error data) = false) ->
        fetchJSON_settle net = RejectedError (status_line res) (res_status res))
       ∧ (forall data, res_body res = Json data ->
            truthy (body_error data) = true ->
            truthy data = true
            ∧ fetchJSON_settle net =
                match to_string (error_of data) with
                | Normal message => RejectedError message (res_status res)
                | Throw e => Rejected e
                end
            ∧ (forall s, error_of data = VStr s ->
                 s ≠ []
                 ∧ fetchJSON_settle net = RejectedError s (res_status res))
            ∧ (error_of data = VArr [] ->
                 fetchJSON_settle net = RejectedError [] (res_status res)))).
Proof.
  assert (Hok : forall res, res_ok res = true <-> 200 <= res_status res <= 299).
  { intros res. unfold res_ok. rewrite andb_true_iff, !Z.leb_le. done. }
  split.
  - intros v. split.
    + destruct net as [res|e]; [|done]. simpl.
      destruct (res_ok res) eqn:Eok.
      * unfold res_json. destruct (res_body res) as [|w] eqn:Eb; [done|].
        intros [= ->]. exists res. by rewrite <- Hok.
      * by destruct (to_string _).
    + intros (res & -> & Hs & Hb). simpl.
      apply Hok in Hs. rewrite Hs. unfold res_json. by rewrite Hb.
  - intros res -> Hs. simpl.
    destruct (res_ok res) eqn:Eok; [by apply Hok in Eok|].
    unfold res_json. split.
    + intros [Hb|(data & Hb & Hf)]; rewrite Hb; simpl; [done|]. by rewrite Hf.
    + intros data Hb Ht. rewrite Hb. simpl. rewrite Ht.
      assert (Hd : truthy data = true).
      { unfold body_error in Ht. destruct (truthy data) eqn:E; [done|].
        by rewrite E in Ht. }
      assert (He : truthy (error_of data) = true).
      { unfold body_error in Ht. by rewrite Hd in Ht. }
      split_and!; [done | done | |].
      * intros s Es. rewrite Es in He |- *. simpl. split; [|done].
        intros ->. done.
      * by intros ->.
Qed.

Lemma fetchJSON_settle_spec_witness :
  fetchJSON_settle
    (Normal {| res_status := 404; res_statusText := js "Not Found";
               res_body := NotJson |})
    = RejectedError (js "404 Not Found") 404.
Proof.
  destruct (fetchJSON_settle_spec
              (Normal {| res_status := 404; res_statusText := js "Not Found";
                         res_body := NotJson |})) as [_ H].
  destruct (H _ eq_refl) as [Hline _]; [simpl; lia|].
  rewrite Hline by (by left). reflexivity.
Defined.

(** ** The typeahead cache *)

Lemma load_all_cached (cache : jsval) (servers : list (completion jsval)) :
  truthy cache = true ->
  Forall (fun step => load_result step = Normal cache
                      ∧ load_cache step = cache
                      ∧ load_fetched step = false)
    (load_all cache servers).
Proof.
  intros Ht. induction servers as [|server r IH]; [constructor|].
  cbn [load_all]. unfold loadTypeahead at 1 2. rewrite Ht. by constructor.
Qed.

(** X17. [loadTypeahead] fetches until it has received a truthy value and
    never again afterwards: once a call has got [data] from the server,
    every later call returns [data] without a fetch, whatever the server
    would answer by then. A failed fetch leaves the cache as it was. *)
Theorem loadTypeahead_cached (data : jsval) (e : js_error)
    (servers : list (completion jsval)) :
  truthy data = true ->
  load_all VNull (Throw e :: Normal data :: servers)
    = {| load_result := Throw e; load_cache := VNull; load_fetched := true |}
      :: {| load_result := Normal data; load_cache := data; load_fetched := true |}
      :: load_all data servers
  ∧ Forall (fun step => load_result step = Normal data
                        ∧ load_fetched step = false)
      (load_all data servers).
Proof.
  intros Ht. split; [done|].
  eapply Forall_impl; [by apply load_all_cached|]. by intros step (? & _ & ?).
Qed.

Lemma loadTypeahead_cached_witness :
  Forall (fun step => load_result step = Normal (VArr [])
                      ∧ load_fetched step = false)
    (load_all (VArr []) [Normal (VNum 1); Throw SyntaxError]).
Proof.
  by apply (loadTypeahead_cached (VArr []) TypeError
              [Normal (VNum 1); Throw SyntaxError]).
Defined.

(** ** Typeahead bootstrap and listener, further *)

(** X18. The bootstrap replaces the options of the datalists, it does not
    add to them: what a datalist held before plays no part, and running
    [initTypeahead] again on its own result against the same server leaves
    every datalist as it is. *)
Theorem initTypeahead_again (fetch : request -> completion (list feed_entry))
    (datalists : list datalist) :
  snd (initTypeahead fetch (snd (initTypeahead fetch datalists)))
    = snd (initTypeahead fetch datalists)
  ∧ (forall ta, fetch (fetchJSON_request "/typeahead") = Normal ta ->
       snd (initTypeahead fetch datalists)
         = map (fun _ => typeahead_options ta) datalists).
Proof.
  split.
  - destruct datalists as [|d ds]; [done|]. unfold initTypeahead.
    destruct (fetch _) as [ta|e] eqn:E; cbn [snd map]; [|done].
    f_equal. by rewrite map_map.
  - intros ta E. destruct datalists as [|d ds]; [done|].
    unfold initTypeahead. by rewrite E.
Qed.

Lemma initTypeahead_again_witness :
  snd (initTypeahead (fun _ => Normal rice_feed)
         [[ {| opt_value := js "old"; opt_data_id := js "0" |} ]])
    = [typeahead_options rice_feed].
Proof.
  by apply (initTypeahead_again (fun _ => Normal rice_feed)
              [[ {| opt_value := js "old"; opt_data_id := js "0" |} ]]).
Defined.

(** X19. The listener only ever writes a canonical label of the feed into
    the input, and only the label of an entry that matches the typed term:
    afterwards the input holds what was typed, or the label of an entry of
    the feed whose lower-cased label or synonym equals the trimmed,
    lower-cased text. *)
Theorem on_change_range (toLowerCase : jsstring -> jsstring)
    (data : list concept) (input_value : jsstring) :
  on_change toLowerCase data input_value = input_value
  ∨ exists m, m ∈ data
              ∧ entry_matches toLowerCase (typed_term toLowerCase input_value) m = true
              ∧ typed_term toLowerCase input_value ≠ []
              ∧ on_change toLowerCase data input_value = label m.
Proof.
  unfold on_change.
  destruct (typed_term toLowerCase input_value) as [|c val] eqn:Ev; [by left|].
  cbn [nonempty].
  destruct (List.find _ data) as [m|] eqn:Ef; [|by left].
  right. exists m. apply find_some in Ef as [Hin Hm].
  split_and!; [by apply list_elem_of_In | done | done | done].
Qed.

(** ** Favorites on an unusable store *)

(** X20. A toggle repairs a store it cannot use: when nothing is stored under
    the favorites key, or a text that is not JSON, or a falsy value, the
    toggle of [id] returns [true] and stores the one-element array of [id],
    replacing whatever was there. *)
Theorem toggleFavorite_fresh (id : Z) (ls : storage) :
  (ls !! LS_favorites = None ∨ ls !! LS_favorites = Some NotJson
   ∨ exists v, ls !! LS_favorites = Some (Json v) ∧ truthy v = false) ->
  toggleFavorite id ls
    = Normal (true, <[LS_favorites := Json (VArr [VNum id])]> ls)
  ∧ isFavorite id (<[LS_favorites := Json (VArr [VNum id])]> ls) = Normal true.
Proof.
  intros H.
  assert (E : getFavorites ls = VArr []).
  { unfold getFavorites, getItem, js_or.
    destruct H as [-> | [-> | (v & -> & Hv)]]; simpl; [done | done |].
    by rewrite Hv. }
  assert (Hid : includes [VNum id] id = true).
  { unfold includes. simpl. by rewrite Z.eqb_refl. }
  split.
  - rewrite (toggleFavorite_array id ls [] E). unfold toggled.
    change (includes [] id) with false. cbn iota.
    change ([] ++ [VNum id]) with [VNum id]. by rewrite Hid.
  - rewrite (isFavorite_array id _ [VNum id]); [by rewrite Hid|].
    apply (getFavorites_set [VNum id] ls).
Qed.

Lemma toggleFavorite_fresh_witness :
  toggleFavorite 7 {[ LS_favorites := NotJson ]}
    = Normal (true, <[LS_favorites := Json (VArr [VNum 7])]>
                      {[ LS_favorites := NotJson ]})
  ∧ isFavorite 7 (<[LS_favorites := Json (VArr [VNum 7])]>
                    {[ LS_favorites := NotJson ]}) = Normal true.
Proof.
  apply (toggleFavorite_fresh 7 {[ LS_favorites := NotJson ]}).
  right. left. reflexivity.
Defined.
